(** * Single-GPU Jacobi solver (jacobi_single_GPU_ROCm.cpp)

    A shallow embedding of the stencil kernel, the boundary initialisation
    kernel, the host main loop and the stream/event choreography of the
    solver, together with the properties of its specification.

    Conventions.
    - [int] values are modelled in [Z]; signed overflow is undefined in C++,
      so the index arithmetic is the mathematical one ([/] and [%] on the
      non-negative operands of the program are [Z.quot] and [Z.rem]).
    - [real] is [float] in the source.  The arithmetic is an interface
      ([RealArith], [RealHost]) with an IEEE-754 binary32 instance built on
      [SpecFloat] and an exact instance over the rationals.
    - device and host buffers are maps from element offsets to values.
    - a kernel launch runs its threads in an arbitrary order: every launch
      takes its schedule as an argument and the theorems quantify over all
      permutations of the launched threads. *)

From Stdlib Require Import ZArith List Bool Lia Permutation Arith FinFun.
From Stdlib Require Import Floats.SpecFloat QArith Qcanon.
From Stdlib Require String.
Import ListNotations.
Import String.StringSyntax.
Local Open Scope string_scope.
Local Open Scope Z_scope.

(* ===================================================================== *)
(** ** Arithmetic of [real] *)
(* ===================================================================== *)

(** Operations used by the device code. *)
Class RealArith (real : Type) := {
  r0 : real;                          (* 0.0 *)
  rquarter : real;                    (* 0.25 *)
  radd : real -> real -> real;
  rsub : real -> real -> real;
  rmul : real -> real -> real
}.

(** Operations used in addition by the host loop. *)
Class RealHost (real : Type) {RA : RealArith real} := {
  r1 : real;                          (* 1.0 *)
  tol : real;                         (* constexpr real tol = 1.0e-8 *)
  rsqrt : real -> real;               (* std::sqrt *)
  rgtb : real -> real -> bool         (* x > y *)
}.

(** IEEE-754 binary32: 24 bits of precision, infinities at exponent 128. *)
Module Binary32.

Definition prec : Z := 24.

Definition emax : Z := 128.

Definition float := spec_float.

Definition zero : float := S754_zero false.

Definition one : float := S754_finite false 8388608 (-23).

(* 0.25 = 2^23 * 2^-25 *)
Definition quarter : float := S754_finite false 8388608 (-25).

(* 1.0e-8 rounded to binary32: 0x322BCC77 = 11258999 * 2^-50 *)
Definition tol : float := S754_finite false 11258999 (-50).

Definition add : float -> float -> float := SFadd prec emax.

Definition sub : float -> float -> float := SFsub prec emax.

Definition mul : float -> float -> float := SFmul prec emax.

Definition sqrt : float -> float := SFsqrt prec emax.

(* x > y *)
Definition gtb (x y : float) : bool := SFltb y x.

Definition leb (x y : float) : bool := SFleb x y.

Definition is_nan (x : float) : bool :=
  match x with S754_nan => true | _ => false end.

End Binary32.

#[export] Instance binary32_arith : RealArith Binary32.float := {|
  r0 := Binary32.zero;
  rquarter := Binary32.quarter;
  radd := Binary32.add;
  rsub := Binary32.sub;
  rmul := Binary32.mul
|}.

#[export] Instance binary32_host : RealHost Binary32.float := {|
  r1 := Binary32.one;
  tol := Binary32.tol;
  rsqrt := Binary32.sqrt;
  rgtb := Binary32.gtb
|}.

(** Exact arithmetic: canonical rationals. *)
#[export] Instance exact_arith : RealArith Qc := {|
  r0 := Q2Qc 0;
  rquarter := Q2Qc (1 # 4);
  radd := Qcplus;
  rsub := Qcminus;
  rmul := Qcmult
|}.

(* ===================================================================== *)
(** ** Buffers and index ranges *)
(* ===================================================================== *)

Section Buffers.

Context {V : Type}.

(** A buffer maps an element offset to the value stored there. *)
Definition buffer := Z -> V.

(** [p[i] = v] *)
Definition store (m : buffer) (i : Z) (v : V) : buffer :=
  fun j => if Z.eqb j i then v else m j.

(** A list of stores performed in order. *)
Definition apply_stores (ws : list (Z * V)) (m : buffer) : buffer :=
  fold_left (fun m w => store m (fst w) (snd w)) ws m.

End Buffers.

Arguments buffer V : clear implicits.

(** [zrange n] is [0, 1, ..., n-1]. *)
Definition zrange (n : Z) : list Z := map Z.of_nat (seq 0 (Z.to_nat n)).

(** [zinterval lo hi] is [lo, lo+1, ..., hi-1]. *)
Definition zinterval (lo hi : Z) : list Z := map (Z.add lo) (zrange (hi - lo)).

(* ===================================================================== *)
(** ** Device kernels *)
(* ===================================================================== *)

(** [dim3] with the two components the program uses (z is always 1). *)
Record dim3 := { dim_x : Z; dim_y : Z }.

(** A thread of a launch: its block index and its index within the block. *)
Record thread := { blockIdx : dim3; threadIdx : dim3 }.

Definition grid_blocks (gridDim : dim3) : list dim3 :=
  flat_map (fun by_ => map (fun bx => {| dim_x := bx; dim_y := by_ |})
                           (zrange (dim_x gridDim)))
           (zrange (dim_y gridDim)).

(** The threads of one block in linear order [threadIdx.y * blockDim.x + threadIdx.x]. *)
Definition block_threads (blockDim : dim3) : list dim3 :=
  flat_map (fun ty => map (fun tx => {| dim_x := tx; dim_y := ty |})
                          (zrange (dim_x blockDim)))
           (zrange (dim_y blockDim)).

Definition grid_threads (gridDim blockDim : dim3) : list thread :=
  flat_map (fun b => map (fun t => {| blockIdx := b; threadIdx := t |})
                         (block_threads blockDim))
           (grid_blocks gridDim).

(** The order in which the device happens to run the threads of a launch
    (order of their stores) and the blocks (order of their atomic adds). *)
Record schedule := { thread_order : list thread; block_order : list dim3 }.

Definition valid_schedule (gridDim blockDim : dim3) (s : schedule) : Prop :=
  Permutation (grid_threads gridDim blockDim) (thread_order s) /\
  Permutation (grid_blocks gridDim) (block_order s).

Definition canonical_schedule (gridDim blockDim : dim3) : schedule :=
  {| thread_order := grid_threads gridDim blockDim;
     block_order := grid_blocks gridDim |}.

Section Kernels.

Context {real : Type} {RA : RealArith real}.

(** *** initialize_boundaries (lines 60-69) *)

(** [sin(2.0 * pi * iy / (ny - 1))] converted to [real]; the value of the
    device's [sin] is a parameter of the model. *)
Variable boundary_sin : Z -> Z -> real.   (* ny, iy *)

(** Grid-stride loop of one thread: the stores of the iterations
    [iy, iy + stride, ...] below [ny]. *)
Fixpoint initialize_boundaries_loop (fuel : nat) (iy stride nx ny : Z)
  : list (Z * real) * list (Z * real) :=
  match fuel with
  | O => ([], [])
  | S fuel' =>
      if iy <? ny then
        let y0 := boundary_sin ny iy in
        let rest := initialize_boundaries_loop fuel' (iy + stride) stride nx ny in
        ((iy * nx + 0, y0) :: (iy * nx + (nx - 1), y0) :: fst rest,
         (iy * nx + 0, y0) :: (iy * nx + (nx - 1), y0) :: snd rest)
      else ([], [])
  end.

(** Stores of one thread into [a] and into [a_new]. *)
Definition initialize_boundaries_thread (gridDim blockDim : dim3) (t : thread)
    (nx ny : Z) : list (Z * real) * list (Z * real) :=
  initialize_boundaries_loop (Z.to_nat ny)
    (dim_x (blockIdx t) * dim_x blockDim + dim_x (threadIdx t))
    (dim_x blockDim * dim_x gridDim) nx ny.

Definition initialize_boundaries (gridDim blockDim : dim3) (order : list thread)
    (a_new a : buffer real) (nx ny : Z) : buffer real * buffer real :=
  (apply_stores
     (flat_map (fun t => snd (initialize_boundaries_thread gridDim blockDim t nx ny)) order)
     a_new,
   apply_stores
     (flat_map (fun t => fst (initialize_boundaries_thread gridDim blockDim t nx ny)) order)
     a).

(** Both boundary cells of every row hold the boundary value. *)
Definition boundary_holds (nx ny : Z) (g : buffer real) : Prop :=
  forall iy, 0 <= iy < ny ->
    g (iy * nx + 0) = boundary_sin ny iy /\ g (iy * nx + (nx - 1)) = boundary_sin ny iy.

(** *** jacobi_kernel (lines 71-109) *)

Definition thread_iy (blockDim : dim3) (t : thread) : Z :=
  dim_y (blockIdx t) * dim_y blockDim + dim_y (threadIdx t) + 1.

Definition thread_ix (blockDim : dim3) (t : thread) : Z :=
  dim_x (blockIdx t) * dim_x blockDim + dim_x (threadIdx t).

(** One thread: the stores it performs into [a_new], in program order, and
    its [local_l2_norm].  The product [0.25 * (...)] is formed in double
    and rounded to [real] on assignment; the double product of a float by
    0.25 is exact, so the stored value is the [real] product. *)
Definition jacobi_thread (blockDim : dim3) (t : thread) (a : buffer real)
    (iy_start iy_end nx : Z) : list (Z * real) * real :=
  let iy := thread_iy blockDim t in
  let ix := thread_ix blockDim t in
  if iy <? iy_end then
    if (1 <=? ix) && (ix <? nx - 1) then
      let new_val :=
        rmul rquarter (radd (radd (radd (a (iy * nx + ix + 1)) (a (iy * nx + ix - 1)))
                                  (a ((iy + 1) * nx + ix)))
                            (a ((iy - 1) * nx + ix))) in
      let residue := rsub new_val (a (iy * nx + ix)) in
      ((iy * nx + ix, new_val)
         :: (if iy_start =? iy then [(iy_end * nx + ix, new_val)] else [])
         ++ (if iy_end - 1 =? iy then [((iy_start - 1) * nx + ix, new_val)] else []),
       rmul residue residue)
    else ([], r0)
  else ([], r0).

(** Modelled from the spec: hipcub's [BlockReduce(...).Sum] is library
    code; the spec describes it as a tree reduction within the block.
    One level adds neighbouring partial sums pairwise. *)
Fixpoint reduce_level (l : list real) : list real :=
  match l with
  | x :: y :: rest => radd x y :: reduce_level rest
  | _ => l
  end.

Fixpoint tree_reduce (fuel : nat) (l : list real) : real :=
  match l with
  | [] => r0
  | [x] => x
  | _ => match fuel with
         | O => r0
         | S fuel' => tree_reduce fuel' (reduce_level l)
         end
  end.

Definition BlockReduce_Sum (l : list real) : real := tree_reduce (length l) l.

Definition block_l2_norm (blockDim : dim3) (b : dim3) (a : buffer real)
    (iy_start iy_end nx : Z) : real :=
  BlockReduce_Sum
    (map (fun ti => snd (jacobi_thread blockDim {| blockIdx := b; threadIdx := ti |}
                           a iy_start iy_end nx))
         (block_threads blockDim)).

(** The launch: every thread performs its stores; thread (0,0) of every
    block adds the block's sum to [*l2_norm] atomically. *)
Definition jacobi_kernel (blockDim : dim3) (s : schedule)
    (a_new a : buffer real) (l2_norm : real) (iy_start iy_end nx : Z)
  : buffer real * real :=
  (apply_stores
     (flat_map (fun t => fst (jacobi_thread blockDim t a iy_start iy_end nx))
               (thread_order s))
     a_new,
   fold_left (fun acc b => radd acc (block_l2_norm blockDim b a iy_start iy_end nx))
             (block_order s) l2_norm).

(** *** Launch geometry of [main] (lines 164-165, 177, 204-206, 227) *)

Definition iy_start : Z := 1.

Definition iy_end (ny : Z) : Z := ny - 1.

Definition dim_block : dim3 := {| dim_x := 32; dim_y := 4 |}.

Definition dim_grid (nx ny : Z) : dim3 :=
  {| dim_x := Z.quot (nx + 32 - 1) 32; dim_y := Z.quot (ny + 4 - 1) 4 |}.

Definition init_block : dim3 := {| dim_x := 128; dim_y := 1 |}.

Definition init_grid (ny : Z) : dim3 := {| dim_x := Z.quot ny 128 + 1; dim_y := 1 |}.

Definition launch_jacobi (nx ny : Z) (s : schedule) (a_new a : buffer real) (l2 : real)
  : buffer real * real :=
  jacobi_kernel dim_block s a_new a l2 iy_start (iy_end ny) nx.

(** [initialize_boundaries<<<ny/128+1, 128>>>(a, a_new, PI, nx, ny)] *)
Definition launch_initialize_boundaries (nx ny : Z) (order : list thread)
    (a a_new : buffer real) : buffer real * buffer real :=
  initialize_boundaries (init_grid ny) init_block order a a_new nx ny.

(** *** Vocabulary of the statements *)

(** The value the stencil assigns to cell [(iy, ix)]. *)
Definition stencil (a : buffer real) (nx iy ix : Z) : real :=
  rmul rquarter (radd (radd (radd (a (iy * nx + ix + 1)) (a (iy * nx + ix - 1)))
                            (a ((iy + 1) * nx + ix)))
                      (a ((iy - 1) * nx + ix))).

(** Squared residual of cell [(iy, ix)]. *)
Definition residual2 (a : buffer real) (nx iy ix : Z) : real :=
  rmul (rsub (stencil a nx iy ix) (a (iy * nx + ix)))
       (rsub (stencil a nx iy ix) (a (iy * nx + ix))).

Definition interior (nx ny iy ix : Z) : Prop :=
  1 <= ix <= nx - 2 /\ iy_start <= iy < iy_end ny.

(** The plain left-to-right sum of a list of values. *)
Definition rsum (l : list real) : real := fold_right radd r0 l.

End Kernels.

(** The cell a thread works on. *)
Definition thread_cell (bd : dim3) (t : thread) : Z * Z :=
  (thread_iy bd t, thread_ix bd t).

(** The interior cells [(iy, ix)] of an [nx] by [ny] grid. *)
Definition interior_cells (nx ny : Z) : list (Z * Z) :=
  list_prod (zinterval iy_start (iy_end ny)) (zinterval 1 (nx - 1)).

(** The threads that pass the two guards of the kernel. *)
Definition thread_active (bd : dim3) (ie nx : Z) (t : thread) : bool :=
  (thread_iy bd t <? ie) && ((1 <=? thread_ix bd t) && (thread_ix bd t <? nx - 1)).

(* ===================================================================== *)
(** ** The host program: data *)
(* ===================================================================== *)

(** The parsed command line (lines 140-144). *)
Record config := {
  iter_max : Z;     (* -niter, default 1000 *)
  nccheck : Z;      (* -nccheck, default 1 *)
  nx : Z;           (* -nx, default 7168 *)
  ny : Z;           (* -ny, default 7168 *)
  csv : bool        (* -csv *)
}.

Inductive stream := compute_stream | copy_l2_norm_stream | reset_l2_norm_stream.

(** The markers; [reset_l2_norm_done] and [l2_norm_bufs[i].copy_done] are
    indexed by the slot. *)
Inductive event :=
  | compute_done
  | reset_l2_norm_done (slot : Z)
  | copy_done (slot : Z).

Inductive device_buffer := buf_a | buf_a_new | buf_l2_norm_d (slot : Z).

Inductive kernel_name := k_initialize_boundaries | k_jacobi_kernel (slot : Z).

(** What the host does to the device and to the pinned host mirrors, in
    program order. *)
Inductive api_call :=
  | hipSetDevice (dev : Z)
  | hipFree (p : option device_buffer)
  | hipMalloc (p : device_buffer)
  | hipMemset (p : device_buffer)
  | hipHostMalloc (slot : Z)
  | hipHostFree (slot : Z)
  | hipLaunchKernelGGL (k : kernel_name) (s : option stream)
  | hipGetLastError
  | hipDeviceSynchronize
  | hipStreamCreate (s : stream)
  | hipStreamDestroy (s : stream)
  | hipEventCreateWithFlags (e : event)
  | hipEventDestroy (e : event)
  | hipStreamWaitEvent (s : stream) (e : event)
  | hipEventRecord (e : event) (s : stream)
  | hipEventSynchronize (e : event)
  | hipMemcpyAsync (slot : Z) (s : stream)      (* l2_norm_bufs[slot].d to .h *)
  | hipMemsetAsync (slot : Z) (s : stream)      (* l2_norm_bufs[slot].d = 0 *)
  | load_h (slot : Z)                           (* ... = *(l2_norm_bufs[slot].h) *)
  | store_h (slot : Z).                         (* *(l2_norm_bufs[slot].h) = ... *)

(** Lines written to the standard streams (the elapsed time of the summary
    lines is not modelled). *)
Inductive line (real : Type) :=
  | msg_only_nccheck_1                              (* stderr, line 147 *)
  | msg_banner (iter_max ny nx nccheck : Z)         (* lines 199-202 *)
  | msg_progress (iter : Z) (norm : real)           (* line 247: "%5d, %0.6f" *)
  | msg_csv_summary (nx ny iter_max nccheck : Z)    (* line 266 *)
  | msg_summary (ny nx : Z).                        (* line 268 *)

Arguments msg_only_nccheck_1 {real}.

Arguments msg_banner {real}.

Arguments msg_progress {real}.

Arguments msg_csv_summary {real}.

Arguments msg_summary {real}.

Record outcome (real : Type) := {
  exit_status : Z;
  stderr : list (line real);
  stdout : list (line real);
  calls : list api_call
}.

Arguments exit_status {real}.

Arguments stderr {real}.

Arguments stdout {real}.

Arguments calls {real}.

(** The variables of [main] that the loop reads and writes. *)
Record host_state (real : Type) := {
  st_a : buffer real;                  (* device grid [a] *)
  st_a_new : buffer real;              (* device grid [a_new] *)
  st_d : buffer real;                  (* *(l2_norm_bufs[slot].d) *)
  st_h : buffer real;                  (* *(l2_norm_bufs[slot].h) *)
  st_l2_norms : buffer real;           (* l2_norms[slot] *)
  st_iter : Z;
  st_l2_norm_greater_than_tol : bool;
  st_out : list (line real)
}.

Arguments st_a {real}.

Arguments st_a_new {real}.

Arguments st_d {real}.

Arguments st_h {real}.

Arguments st_l2_norms {real}.

Arguments st_iter {real}.

Arguments st_l2_norm_greater_than_tol {real}.

Arguments st_out {real}.

(** [prev] and [curr] of an iteration (lines 221-222). *)
Definition prev (iter : Z) : Z := Z.rem iter 2.

Definition curr (iter : Z) : Z := Z.rem (iter + 1) 2.

(** The condition under which an iteration extracts and checks the norm
    (line 232). *)
Definition check_due (c : config) (iter : Z) : bool :=
  (Z.rem iter (nccheck c) =? 0) || (negb (csv c) && (Z.rem iter 100 =? 0)).

(** The condition under which the progress line is printed (line 246). *)
Definition report_due (c : config) (iter : Z) : bool :=
  negb (csv c) && (Z.rem iter 100 =? 0).

(* ===================================================================== *)
(** ** The host program: values *)
(* ===================================================================== *)

(** The main loop with every asynchronous operation taking effect where it
    is issued.  The marker protocol (section on streams below) orders all
    conflicting accesses to the accumulator slots and their mirrors in this
    way. *)
Section Host.

Context {real : Type} {RA : RealArith real} {RH : RealHost real}.

Variable boundary_sin : Z -> Z -> real.
(** The schedule of the launch of every iteration, and of the
    initialisation kernel. *)
Variable jacobi_schedule : Z -> schedule.
Variable init_order : list thread.

(** Lines 170-196 and 208-217. *)
Definition setup (c : config) : host_state real :=
  let zeroed : buffer real := fun _ => r0 in      (* hipMemset(.., 0, ..) *)
  let grids := launch_initialize_boundaries boundary_sin (nx c) (ny c) init_order
                 zeroed zeroed in
  {| st_a := fst grids;
     st_a_new := snd grids;
     st_d := fun _ => r0;
     st_h := fun _ => r1;
     st_l2_norms := fun _ => r0;
     st_iter := 0;
     st_l2_norm_greater_than_tol := true;
     st_out := [] |}.

(** Lines 225-229: the compute of an iteration accumulates into slot
    [curr]. *)
Definition compute (c : config) (st : host_state real) : host_state real :=
  let k := launch_jacobi (nx c) (ny c) (jacobi_schedule (st_iter st))
             (st_a_new st) (st_a st) (st_d st (curr (st_iter st))) in
  {| st_a := st_a st;
     st_a_new := fst k;
     st_d := store (st_d st) (curr (st_iter st)) (snd k);
     st_h := st_h st;
     st_l2_norms := st_l2_norms st;
     st_iter := st_iter st;
     st_l2_norm_greater_than_tol := st_l2_norm_greater_than_tol st;
     st_out := st_out st |}.

(** Lines 233-236: slot [curr] is copied to its host mirror. *)
Definition extract (st : host_state real) : host_state real :=
  {| st_a := st_a st;
     st_a_new := st_a_new st;
     st_d := st_d st;
     st_h := store (st_h st) (curr (st_iter st)) (st_d st (curr (st_iter st)));
     st_l2_norms := st_l2_norms st;
     st_iter := st_iter st;
     st_l2_norm_greater_than_tol := st_l2_norm_greater_than_tol st;
     st_out := st_out st |}.

(** Lines 240-255: the norm of slot [prev] is evaluated, reported and the
    slot is reset.  The first component is the norm that was evaluated. *)
Definition evaluate_and_reset (c : config) (st : host_state real)
  : real * host_state real :=
  let p := prev (st_iter st) in
  let l2_norms1 := store (st_l2_norms st) p (st_h st p) in
  let l2_norms2 := store l2_norms1 p (rsqrt (l2_norms1 p)) in
  let norm := l2_norms2 p in
  (norm,
   {| st_a := st_a st;
      st_a_new := st_a_new st;
      st_d := store (st_d st) p r0;
      st_h := store (st_h st) p r0;
      st_l2_norms := store l2_norms2 p r0;
      st_iter := st_iter st;
      st_l2_norm_greater_than_tol := rgtb norm tol;
      st_out := if report_due c (st_iter st)
                then st_out st ++ [msg_progress (st_iter st) norm]
                else st_out st |}).

(** Lines 258-259. *)
Definition swap_and_count (st : host_state real) : host_state real :=
  {| st_a := st_a_new st;
     st_a_new := st_a st;
     st_d := st_d st;
     st_h := st_h st;
     st_l2_norms := st_l2_norms st;
     st_iter := st_iter st + 1;
     st_l2_norm_greater_than_tol := st_l2_norm_greater_than_tol st;
     st_out := st_out st |}.

(** The body of the [while] loop (lines 219-259). *)
Definition loop_body (c : config) (st : host_state real) : host_state real :=
  let st1 := compute c st in
  let st2 := if check_due c (st_iter st1)
             then snd (evaluate_and_reset c (extract st1))
             else st1 in
  swap_and_count st2.

Definition loop_condition (c : config) (st : host_state real) : bool :=
  st_l2_norm_greater_than_tol st && (st_iter st <? iter_max c).

(** [while (l2_norm_greater_than_tol && iter < iter_max)] *)
Fixpoint main_loop (fuel : nat) (c : config) (st : host_state real) : host_state real :=
  match fuel with
  | O => st
  | S fuel' =>
      if loop_condition c st then main_loop fuel' c (loop_body c st) else st
  end.

(** [k] iterations of the body, whatever the flag says. *)
Fixpoint iterate_body (k : nat) (c : config) (st : host_state real) : host_state real :=
  match k with
  | O => st
  | S k' => loop_body c (iterate_body k' c st)
  end.

(** *** The calls of [main] *)

Definition setup_calls : list api_call :=
  [ hipSetDevice 0; hipFree None;
    hipMalloc buf_a; hipMalloc buf_a_new; hipMemset buf_a; hipMemset buf_a_new;
    hipLaunchKernelGGL k_initialize_boundaries None; hipGetLastError;
    hipDeviceSynchronize;
    hipStreamCreate compute_stream; hipStreamCreate copy_l2_norm_stream;
    hipStreamCreate reset_l2_norm_stream;
    hipEventCreateWithFlags compute_done;
    hipEventCreateWithFlags (reset_l2_norm_done 0);
    hipEventCreateWithFlags (reset_l2_norm_done 1) ]
  ++ flat_map (fun i => [ hipEventCreateWithFlags (copy_done i);
                          hipMalloc (buf_l2_norm_d i); hipMemset (buf_l2_norm_d i);
                          hipHostMalloc i; store_h i ]) [0; 1]
  ++ [ hipDeviceSynchronize ].

(** The calls of one iteration (lines 225-255). *)
Definition iteration_calls (c : config) (iter : Z) : list api_call :=
  [ hipStreamWaitEvent compute_stream (reset_l2_norm_done (curr iter));
    hipLaunchKernelGGL (k_jacobi_kernel (curr iter)) (Some compute_stream);
    hipGetLastError;
    hipEventRecord compute_done compute_stream ]
  ++ (if check_due c iter then
        [ hipStreamWaitEvent copy_l2_norm_stream compute_done;
          hipMemcpyAsync (curr iter) copy_l2_norm_stream;
          hipEventRecord (copy_done (curr iter)) copy_l2_norm_stream;
          hipEventSynchronize (copy_done (prev iter));
          load_h (prev iter);
          store_h (prev iter);
          hipMemsetAsync (prev iter) reset_l2_norm_stream;
          hipEventRecord (reset_l2_norm_done (prev iter)) reset_l2_norm_stream ]
      else []).

(** The calls of the first [n] iterations. *)
Definition loop_calls (c : config) (n : nat) : list api_call :=
  flat_map (fun k => iteration_calls c (Z.of_nat k)) (seq 0 n).

Definition teardown_calls : list api_call :=
  [ hipDeviceSynchronize ]
  ++ flat_map (fun i => [ hipHostFree i; hipFree (Some (buf_l2_norm_d i));
                          hipEventDestroy (copy_done i) ]) [0; 1]
  ++ [ hipEventDestroy (reset_l2_norm_done 1); hipEventDestroy (reset_l2_norm_done 0);
       hipEventDestroy compute_done;
       hipStreamDestroy reset_l2_norm_stream; hipStreamDestroy copy_l2_norm_stream;
       hipStreamDestroy compute_stream;
       hipFree (Some buf_a_new); hipFree (Some buf_a) ].

(** [main] (lines 139-289), from the parsed arguments. *)
Definition main (c : config) : outcome real :=
  if negb (nccheck c =? 1) then
    {| exit_status := -1;
       stderr := [msg_only_nccheck_1];
       stdout := [];
       calls := [] |}
  else
    let st := main_loop (Z.to_nat (iter_max c)) c (setup c) in
    {| exit_status := 0;
       stderr := [];
       stdout := (if csv c then []
                  else [msg_banner (iter_max c) (ny c) (nx c) (nccheck c)])
                 ++ st_out st
                 ++ (if csv c
                     then [msg_csv_summary (nx c) (ny c) (iter_max c) (nccheck c)]
                     else [msg_summary (ny c) (nx c)]);
       calls := setup_calls ++ loop_calls c (Z.to_nat (st_iter st)) ++ teardown_calls |}.

(** *** Vocabulary of the statements *)

(** The state in which iteration [k] starts. *)
Definition state_before (c : config) (k : nat) : host_state real :=
  iterate_body k c (setup c).

(** The norm that iteration [k] evaluates and compares with [tol]. *)
Definition norm_evaluated (c : config) (k : nat) : real :=
  fst (evaluate_and_reset c (extract (compute c (state_before c k)))).

(** What the compute launched by iteration [k] leaves in its slot. *)
Definition compute_result (c : config) (k : nat) : real :=
  st_d (compute c (state_before c k)) (curr (Z.of_nat k)).

(** The number of iterations the loop of [main] performs. *)
Definition iterations_run (c : config) : nat :=
  Z.to_nat (st_iter (main_loop (Z.to_nat (iter_max c)) c (setup c))).

End Host.

(* ===================================================================== *)
(** ** The command line (lines 114-131 and 140-144) *)
(* ===================================================================== *)

(** [std::find(begin, end, arg)]: the arguments from the first one equal
    to [arg] on; the empty list stands for [end]. *)
Fixpoint std_find (args : list String.string) (arg : String.string)
  : list String.string :=
  match args with
  | [] => []
  | x :: rest => if String.eqb x arg then args else std_find rest arg
  end.

(** [get_argval<T>] (lines 114-123).  [inbuf >> argval] is the formatted
    extraction of the standard library for [T]: [extract s v] is what it
    leaves in [argval], which held [v], after reading the text [s]. *)
Definition get_argval {T : Type} (extract : String.string -> T -> T)
    (args : list String.string) (arg : String.string) (default_val : T) : T :=
  let argval := default_val in
  match std_find args arg with
  | _ :: s :: _ => extract s argval       (* itr != end && ++itr != end *)
  | _ => argval
  end.

(** [get_arg] (lines 125-131). *)
Definition get_arg (args : list String.string) (arg : String.string) : bool :=
  match std_find args arg with
  | _ :: _ => true                        (* itr != end *)
  | [] => false
  end.



(** The progress lines of the first [k] iterations (line 247). *)
Definition progress_lines {real : Type} {RA : RealArith real} {RH : RealHost real}
    (boundary_sin : Z -> Z -> real) (jacobi_schedule : Z -> schedule)
    (init_order : list thread) (c : config) (k : nat) : list (line real) :=
  map (fun i => msg_progress (Z.of_nat i)
                  (norm_evaluated boundary_sin jacobi_schedule init_order c i))
      (filter (fun i => report_due c (Z.of_nat i)) (seq 0 k)).

(* ===================================================================== *)
(** ** The host program: streams and markers *)
(* ===================================================================== *)

(** What the runtime executes: the state the device was left in by the
    set-up ([hipDeviceSynchronize], line 196), the [j]-th operation
    enqueued on a stream, and the [j]-th access of the host to a mirror. *)
Inductive node :=
  | Setup
  | DevOp (s : stream) (j : nat)
  | HostAccess (j : nat).

(** An executed operation: the call it comes from and the operations it
    cannot start before. *)
Record op := { op_node : node; op_call : api_call; op_waits : list node }.

Definition stream_eqb (s1 s2 : stream) : bool :=
  match s1, s2 with
  | compute_stream, compute_stream
  | copy_l2_norm_stream, copy_l2_norm_stream
  | reset_l2_norm_stream, reset_l2_norm_stream => true
  | _, _ => false
  end.

Definition event_eqb (e1 e2 : event) : bool :=
  match e1, e2 with
  | compute_done, compute_done => true
  | reset_l2_norm_done i, reset_l2_norm_done j => i =? j
  | copy_done i, copy_done j => i =? j
  | _, _ => false
  end.

(** The state of the runtime as the host issues calls.
    - a stream runs its operations in the order they were enqueued;
      [rt_pending s] is what the next operation of [s] has to wait for: the
      previous operation of [s] and the markers [s] was told to wait for;
    - recording a marker on [s] captures the work enqueued on [s] so far;
      a marker that was never recorded stands for nothing, and waiting for
      it returns at once;
    - [rt_host_seen] is what the host knows to be complete; an operation
      cannot start before it is enqueued, hence not before what the host
      had seen by then. *)
Record runtime := {
  rt_enqueued : stream -> nat;
  rt_pending : stream -> list node;
  rt_recorded : event -> list node;
  rt_host_seen : list node;
  rt_host_count : nat;
  rt_graph : list op
}.

Definition after_setup : runtime :=
  {| rt_enqueued := fun _ => O;
     rt_pending := fun _ => [];
     rt_recorded := fun _ => [];
     rt_host_seen := [Setup];
     rt_host_count := O;
     rt_graph := [] |}.

Definition enqueue (rt : runtime) (s : stream) (c : api_call) : runtime :=
  let n := DevOp s (rt_enqueued rt s) in
  {| rt_enqueued := fun s' => if stream_eqb s' s then S (rt_enqueued rt s) else rt_enqueued rt s';
     rt_pending := fun s' => if stream_eqb s' s then [n] else rt_pending rt s';
     rt_recorded := rt_recorded rt;
     rt_host_seen := rt_host_seen rt;
     rt_host_count := rt_host_count rt;
     rt_graph := rt_graph rt ++
                 [{| op_node := n; op_call := c;
                     op_waits := rt_pending rt s ++ rt_host_seen rt |}] |}.

Definition host_access (rt : runtime) (c : api_call) : runtime :=
  let n := HostAccess (rt_host_count rt) in
  {| rt_enqueued := rt_enqueued rt;
     rt_pending := rt_pending rt;
     rt_recorded := rt_recorded rt;
     rt_host_seen := [n];
     rt_host_count := S (rt_host_count rt);
     rt_graph := rt_graph rt ++
                 [{| op_node := n; op_call := c; op_waits := rt_host_seen rt |}] |}.

Definition issue (rt : runtime) (c : api_call) : runtime :=
  match c with
  | hipStreamWaitEvent s e =>
      {| rt_enqueued := rt_enqueued rt;
         rt_pending := fun s' => if stream_eqb s' s
                                 then rt_pending rt s ++ rt_recorded rt e
                                 else rt_pending rt s';
         rt_recorded := rt_recorded rt;
         rt_host_seen := rt_host_seen rt;
         rt_host_count := rt_host_count rt;
         rt_graph := rt_graph rt |}
  | hipEventRecord e s =>
      {| rt_enqueued := rt_enqueued rt;
         rt_pending := rt_pending rt;
         rt_recorded := fun e' => if event_eqb e' e then rt_pending rt s
                                  else rt_recorded rt e';
         rt_host_seen := rt_host_seen rt;
         rt_host_count := rt_host_count rt;
         rt_graph := rt_graph rt |}
  | hipEventSynchronize e =>
      {| rt_enqueued := rt_enqueued rt;
         rt_pending := rt_pending rt;
         rt_recorded := rt_recorded rt;
         rt_host_seen := rt_host_seen rt ++ rt_recorded rt e;
         rt_host_count := rt_host_count rt;
         rt_graph := rt_graph rt |}
  | hipDeviceSynchronize =>
      {| rt_enqueued := rt_enqueued rt;
         rt_pending := rt_pending rt;
         rt_recorded := rt_recorded rt;
         rt_host_seen := rt_host_seen rt ++ rt_pending rt compute_stream
                           ++ rt_pending rt copy_l2_norm_stream
                           ++ rt_pending rt reset_l2_norm_stream;
         rt_host_count := rt_host_count rt;
         rt_graph := rt_graph rt |}
  | hipLaunchKernelGGL _ (Some s) => enqueue rt s c
  | hipMemcpyAsync _ s => enqueue rt s c
  | hipMemsetAsync _ s => enqueue rt s c
  | load_h _ => host_access rt c
  | store_h _ => host_access rt c
  | _ => rt
  end.

Definition issue_all (cs : list api_call) (rt : runtime) : runtime :=
  fold_left issue cs rt.

(** The operations of the first [n] iterations of the loop with what each
    of them waits for. *)
Definition loop_graph (c : config) (n : nat) : list op :=
  rt_graph (issue_all (loop_calls c n) after_setup).

(** An execution gives every operation the interval of time in which it
    runs; it is admissible when no operation starts before what it waits
    for has finished. *)
Record timing := { t_start : node -> nat; t_finish : node -> nat }.

Definition admissible (g : list op) (t : timing) : Prop :=
  forall o, In o g ->
    (t_start t (op_node o) <= t_finish t (op_node o))%nat /\
    (forall w, In w (op_waits o) -> (t_finish t w <= t_start t (op_node o))%nat).

(** The accumulator slots and their host mirrors. *)
Inductive location := loc_d (slot : Z) | loc_h (slot : Z).

Definition location_eqb (l1 l2 : location) : bool :=
  match l1, l2 with
  | loc_d i, loc_d j => i =? j
  | loc_h i, loc_h j => i =? j
  | _, _ => false
  end.

Definition reads (c : api_call) : list location :=
  match c with
  | hipLaunchKernelGGL (k_jacobi_kernel slot) _ => [loc_d slot]     (* atomicAdd *)
  | hipMemcpyAsync slot _ => [loc_d slot]
  | load_h slot => [loc_h slot]
  | _ => []
  end.

Definition writes (c : api_call) : list location :=
  match c with
  | hipLaunchKernelGGL (k_jacobi_kernel slot) _ => [loc_d slot]     (* atomicAdd *)
  | hipMemcpyAsync slot _ => [loc_h slot]
  | hipMemsetAsync slot _ => [loc_d slot]
  | store_h slot => [loc_h slot]
  | _ => []
  end.

(** The operations of iteration [k]. *)
Definition kernel_of (k : nat) : node := DevOp compute_stream k.

Definition copy_of (k : nat) : node := DevOp copy_l2_norm_stream k.

Definition reset_of (k : nat) : node := DevOp reset_l2_norm_stream k.

Definition load_of (k : nat) : node := HostAccess (2 * k).

Definition clear_of (k : nat) : node := HostAccess (2 * k + 1).

(** What iteration [k] adds to the graph when every iteration checks the
    norm. *)
Definition iteration_ops (k : nat) : list op :=
  [ {| op_node := kernel_of k;
       op_call := hipLaunchKernelGGL (k_jacobi_kernel (curr (Z.of_nat k))) (Some compute_stream);
       op_waits := match k with
                   | O => [Setup]
                   | S k' => [kernel_of k'; reset_of k'; clear_of k']
                   end |};
    {| op_node := copy_of k;
       op_call := hipMemcpyAsync (curr (Z.of_nat k)) copy_l2_norm_stream;
       op_waits := match k with
                   | O => [kernel_of O; Setup]
                   | S k' => [copy_of k'; kernel_of k; clear_of k']
                   end |};
    {| op_node := load_of k;
       op_call := load_h (prev (Z.of_nat k));
       op_waits := match k with
                   | O => [Setup]
                   | S k' => [clear_of k'; copy_of k']
                   end |};
    {| op_node := clear_of k;
       op_call := store_h (prev (Z.of_nat k));
       op_waits := [load_of k] |};
    {| op_node := reset_of k;
       op_call := hipMemsetAsync (prev (Z.of_nat k)) reset_l2_norm_stream;
       op_waits := match k with
                   | O => [clear_of O]
                   | S k' => [reset_of k'; clear_of k]
                   end |} ].

(** The state of the runtime after [n] iterations. *)
Definition runtime_after (n : nat) (rt : runtime) : Prop :=
  (forall s, rt_enqueued rt s = n) /\
  (forall s, rt_pending rt s = match n with O => [] | S n' => [DevOp s n'] end) /\
  match n with
  | O => forall e, rt_recorded rt e = []
  | S n' =>
      rt_recorded rt compute_done = [kernel_of n'] /\
      rt_recorded rt (reset_l2_norm_done (prev (Z.of_nat n'))) = [reset_of n'] /\
      rt_recorded rt (copy_done (curr (Z.of_nat n'))) = [copy_of n']
  end /\
  rt_host_seen rt = match n with O => [Setup] | S n' => [clear_of n'] end /\
  rt_host_count rt = (2 * n)%nat.

(** When the host reads the mirror in iteration [k], some compute into the
    slot of that mirror has finished. *)
Definition evaluates_finished_compute (g : list op) (t : timing) (k : nat) : Prop :=
  exists o, In o g /\
    op_call o = hipLaunchKernelGGL (k_jacobi_kernel (prev (Z.of_nat k)))
                                   (Some compute_stream) /\
    (t_finish t (op_node o) <= t_start t (load_of k))%nat.

(** The execution in which every operation runs alone, in the order of the
    program. *)
Definition sequential_timing : timing :=
  let at_ (n : node) : nat :=
    match n with
    | Setup => 0
    | DevOp compute_stream j => 10 * j + 1
    | DevOp copy_l2_norm_stream j => 10 * j + 3
    | HostAccess j => 10 * (j / 2) + 5 + 2 * (j mod 2)
    | DevOp reset_l2_norm_stream j => 10 * j + 9
    end%nat in
  {| t_start := at_; t_finish := fun n => S (at_ n) |}.

(** A check of admissibility by computation. *)
Definition admissibleb (g : list op) (t : timing) : bool :=
  forallb (fun o =>
             Nat.leb (t_start t (op_node o)) (t_finish t (op_node o)) &&
             forallb (fun w => Nat.leb (t_finish t w) (t_start t (op_node o)))
                     (op_waits o))
          g.

(** The five operations of an iteration. *)
Inductive op_kind := op_kernel | op_copy | op_load | op_clear | op_reset.

Definition node_of (x : op_kind) (k : nat) : node :=
  match x with
  | op_kernel => kernel_of k
  | op_copy => copy_of k
  | op_load => load_of k
  | op_clear => clear_of k
  | op_reset => reset_of k
  end.

(** The slot whose accumulator or mirror an operation of iteration [k]
    works on. *)
Definition slot_of (x : op_kind) (k : nat) : Z :=
  match x with
  | op_kernel | op_copy => curr (Z.of_nat k)
  | op_load | op_clear | op_reset => prev (Z.of_nat k)
  end.

(** The slots and mirrors a call reads or writes. *)
Definition accesses (c : api_call) : list location := reads c ++ writes c.

(** What the host knows to be complete when the [hipDeviceSynchronize]
    that follows the loop (line 261) returns. *)
Definition seen_after_loop (c : config) (n : nat) : list node :=
  rt_host_seen (issue (issue_all (loop_calls c n) after_setup) hipDeviceSynchronize).

(** The calls in which the host waits for the device. *)
Definition blocks_host (c : api_call) : bool :=
  match c with
  | hipEventSynchronize _ | hipDeviceSynchronize => true
  | _ => false
  end.

(* ===================================================================== *)
(** ** The host program: lifetimes of the resources *)
(* ===================================================================== *)

(** What [main] creates and destroys: streams, markers, device buffers
    and the pinned host mirrors. *)
Inductive resource :=
  | res_stream (s : stream)
  | res_event (e : event)
  | res_device (p : device_buffer)
  | res_host (slot : Z).

Definition device_buffer_eqb (p q : device_buffer) : bool :=
  match p, q with
  | buf_a, buf_a | buf_a_new, buf_a_new => true
  | buf_l2_norm_d i, buf_l2_norm_d j => i =? j
  | _, _ => false
  end.

Definition resource_eqb (r1 r2 : resource) : bool :=
  match r1, r2 with
  | res_stream s1, res_stream s2 => stream_eqb s1 s2
  | res_event e1, res_event e2 => event_eqb e1 e2
  | res_device p, res_device q => device_buffer_eqb p q
  | res_host i, res_host j => i =? j
  | _, _ => false
  end.

Definition creates (c : api_call) : list resource :=
  match c with
  | hipMalloc p => [res_device p]
  | hipHostMalloc slot => [res_host slot]
  | hipStreamCreate s => [res_stream s]
  | hipEventCreateWithFlags e => [res_event e]
  | _ => []
  end.

Definition releases (c : api_call) : list resource :=
  match c with
  | hipFree (Some p) => [res_device p]
  | hipHostFree slot => [res_host slot]
  | hipStreamDestroy s => [res_stream s]
  | hipEventDestroy e => [res_event e]
  | _ => []
  end.

(** The resources a call works on, besides those it creates or releases;
    a kernel uses the buffers it is passed and the stream it is launched
    on ([None] is the default stream). *)
Definition uses (c : api_call) : list resource :=
  let on (s : option stream) :=
    match s with Some s => [res_stream s] | None => [] end in
  match c with
  | hipMemset p => [res_device p]
  | hipLaunchKernelGGL k_initialize_boundaries s =>
      [res_device buf_a; res_device buf_a_new] ++ on s
  | hipLaunchKernelGGL (k_jacobi_kernel slot) s =>
      [res_device buf_a_new; res_device buf_a; res_device (buf_l2_norm_d slot)] ++ on s
  | hipStreamWaitEvent s e => [res_stream s; res_event e]
  | hipEventRecord e s => [res_event e; res_stream s]
  | hipEventSynchronize e => [res_event e]
  | hipMemcpyAsync slot s => [res_host slot; res_device (buf_l2_norm_d slot); res_stream s]
  | hipMemsetAsync slot s => [res_device (buf_l2_norm_d slot); res_stream s]
  | load_h slot => [res_host slot]
  | store_h slot => [res_host slot]
  | _ => []
  end.

Definition live (l : list resource) (r : resource) : bool :=
  existsb (resource_eqb r) l.

(** One call against the resources that exist: [None] when the call
    works on or releases a resource that does not exist (never created,
    or already released), or creates one that exists. *)
Definition track (l : option (list resource)) (c : api_call) : option (list resource) :=
  match l with
  | None => None
  | Some l =>
      if forallb (live l) (uses c ++ releases c) &&
         forallb (fun r => negb (live l r)) (creates c)
      then Some (creates c ++ filter (fun r => negb (live (releases c) r)) l)
      else None
  end.

(** The resources that exist after a sequence of calls of a program that
    starts with none. *)
Definition track_all (cs : list api_call) : option (list resource) :=
  fold_left track cs (Some []).

(** The resources of [main] between its set-up and its tear-down. *)
Definition main_resources : list resource :=
  [ res_host 1; res_device (buf_l2_norm_d 1); res_event (copy_done 1);
    res_host 0; res_device (buf_l2_norm_d 0); res_event (copy_done 0);
    res_event (reset_l2_norm_done 1); res_event (reset_l2_norm_done 0);
    res_event compute_done;
    res_stream reset_l2_norm_stream; res_stream copy_l2_norm_stream;
    res_stream compute_stream;
    res_device buf_a_new; res_device buf_a ].

(** A strictly positive binary32 number. *)
Definition binary32_positive (x : Binary32.float) : bool :=
  match x with
  | S754_infinity false | S754_finite false _ _ => true
  | _ => false
  end.

(* ===================================================================== *)
(** ** Sample inputs *)
(* ===================================================================== *)

(** A grid of zeros, used to instantiate the statements below. *)
Definition zero_grid : buffer Binary32.float := fun _ => Binary32.zero.

(** A grid of rationals with a bump, to instantiate C4. *)
Definition sample_exact_grid : buffer Qc := fun j => Q2Qc (inject_Z j).

(** A small run used to instantiate the statements below: a grid of two
    rows and two columns, ten iterations at most, the canonical order of
    threads and blocks. *)
Definition sample_config : config :=
  {| iter_max := 10; nccheck := 1; nx := 2; ny := 2; csv := true |}.

(** [sin(2.0 * pi * iy / (ny - 1))] for the two rows of [sample_config],
    rounded to binary32: [sin(0) = 0] and
    [sin(2 * 3.14159274...) = 1.7484555e-07 = 12303662 * 2^-46]. *)
Definition sample_boundary_sin (ny iy : Z) : Binary32.float :=
  if iy =? 0 then Binary32.zero else S754_finite false 12303662 (-46).

Definition sample_schedule (iter : Z) : schedule :=
  canonical_schedule (dim_grid (nx sample_config) (ny sample_config)) dim_block.

Definition sample_init_order : list thread :=
  grid_threads (init_grid (ny sample_config)) init_block.

(** The state in which the second iteration of a human-readable run checks
    the norm: nothing printed by the loop so far, and some residual in the
    mirror of slot 1. *)
Definition second_check_config : config :=
  {| iter_max := 1000; nccheck := 1; nx := 7168; ny := 7168; csv := false |}.

Definition second_check_state : host_state Binary32.float :=
  {| st_a := zero_grid;
     st_a_new := zero_grid;
     st_d := fun slot => if slot =? 1 then Binary32.quarter else Binary32.zero;
     st_h := fun slot => if slot =? 1 then Binary32.quarter else Binary32.zero;
     st_l2_norms := fun _ => Binary32.zero;
     st_iter := 1;
     st_l2_norm_greater_than_tol := true;
     st_out := [] |}.

(** A human-readable run of two iterations at most, and a run without
    iterations, on the grid of [sample_config]. *)
Definition sample_report_config : config :=
  {| iter_max := 2; nccheck := 1; nx := 2; ny := 2; csv := false |}.

Definition sample_idle_config : config :=
  {| iter_max := 0; nccheck := 1; nx := 2; ny := 2; csv := true |}.

(** A grid of three rows and three columns: one interior cell. *)
Definition sample_config_3x3 : config :=
  {| iter_max := 10; nccheck := 1; nx := 3; ny := 3; csv := true |}.

Definition sample_schedule_3x3 (iter : Z) : schedule :=
  canonical_schedule (dim_grid (nx sample_config_3x3) (ny sample_config_3x3)) dim_block.

Definition sample_init_order_3x3 : list thread :=
  grid_threads (init_grid (ny sample_config_3x3)) init_block.

(* ===================================================================== *)
(** ** Facts about buffers and ranges *)
(* ===================================================================== *)

Section BufferFacts.

Context {V : Type}.
Implicit Types (m : buffer V) (ws : list (Z * V)).

Lemma store_eq m i v : store m i v i = v.
Proof. unfold store. now rewrite Z.eqb_refl. Qed.

Lemma store_ne m i v j : j <> i -> store m i v j = m j.
Proof. unfold store. intros H. apply Z.eqb_neq in H. now rewrite H. Qed.

Lemma apply_stores_app ws1 ws2 m :
  apply_stores (ws1 ++ ws2) m = apply_stores ws2 (apply_stores ws1 m).
Proof. unfold apply_stores. apply fold_left_app. Qed.

Lemma apply_stores_untouched ws m j :
  (forall w, In w ws -> fst w <> j) -> apply_stores ws m j = m j.
Proof.
  revert m. induction ws as [|w ws IH]; intros m Hno; [reflexivity|].
  simpl. rewrite IH.
  - apply store_ne. intros E. apply (Hno w); [now left | now symmetry].
  - intros w' Hin. apply Hno. now right.
Qed.

(** When every store to [j] carries the same value [v], and there is one,
    the order of the stores does not matter: [j] ends up holding [v]. *)
Lemma apply_stores_agree ws m j v :
  (exists w, In w ws /\ fst w = j) ->
  (forall w, In w ws -> fst w = j -> snd w = v) ->
  apply_stores ws m j = v.
Proof.
  induction ws as [|w ws IH] using rev_ind; intros [w0 [Hin Hj]] Hall.
  - destruct Hin.
  - rewrite apply_stores_app. simpl.
    destruct (Z.eq_dec (fst w) j) as [E|NE].
    + rewrite E, store_eq. apply Hall; [apply in_or_app; right; now left | exact E].
    + rewrite store_ne by congruence.
      apply IH.
      * apply in_app_or in Hin. destruct Hin as [Hin|[<-|[]]].
        -- now exists w0.
        -- congruence.
      * intros w' Hin' Hj'. apply Hall; [apply in_or_app; now left | exact Hj'].
Qed.

End BufferFacts.

Lemma in_zrange n i : In i (zrange n) <-> 0 <= i < n.
Proof.
  unfold zrange. rewrite in_map_iff. split.
  - intros [k [<- Hk]]. apply in_seq in Hk. lia.
  - intros H. exists (Z.to_nat i). split; [lia|]. apply in_seq. lia.
Qed.

Lemma in_zinterval lo hi i : In i (zinterval lo hi) <-> lo <= i < hi.
Proof.
  unfold zinterval. rewrite in_map_iff. split.
  - intros [k [<- Hk]]. apply in_zrange in Hk. lia.
  - intros H. exists (i - lo). split; [lia|]. apply in_zrange. lia.
Qed.

Lemma NoDup_zrange n : NoDup (zrange n).
Proof.
  unfold zrange. apply Injective_map_NoDup.
  - intros a b. apply Nat2Z.inj.
  - apply seq_NoDup.
Qed.

Lemma NoDup_zinterval lo hi : NoDup (zinterval lo hi).
Proof.
  unfold zinterval. apply Injective_map_NoDup.
  - intros a b. lia.
  - apply NoDup_zrange.
Qed.

(* ===================================================================== *)
(** ** Facts about the launch geometry *)
(* ===================================================================== *)

Lemma in_grid_blocks g b :
  In b (grid_blocks g) <-> 0 <= dim_x b < dim_x g /\ 0 <= dim_y b < dim_y g.
Proof.
  unfold grid_blocks. rewrite in_flat_map. split.
  - intros [by_ [Hy Hb]]. apply in_map_iff in Hb. destruct Hb as [bx [<- Hx]].
    apply in_zrange in Hy, Hx. simpl. lia.
  - intros [Hx Hy]. exists (dim_y b). split; [now apply in_zrange|].
    apply in_map_iff. exists (dim_x b). split; [now destruct b | now apply in_zrange].
Qed.

Lemma in_block_threads bd t :
  In t (block_threads bd) <-> 0 <= dim_x t < dim_x bd /\ 0 <= dim_y t < dim_y bd.
Proof.
  unfold block_threads. rewrite in_flat_map. split.
  - intros [ty [Hy Ht]]. apply in_map_iff in Ht. destruct Ht as [tx [<- Hx]].
    apply in_zrange in Hy, Hx. simpl. lia.
  - intros [Hx Hy]. exists (dim_y t). split; [now apply in_zrange|].
    apply in_map_iff. exists (dim_x t). split; [now destruct t | now apply in_zrange].
Qed.

Lemma in_grid_threads g bd t :
  In t (grid_threads g bd) <->
  In (blockIdx t) (grid_blocks g) /\ In (threadIdx t) (block_threads bd).
Proof.
  unfold grid_threads. rewrite in_flat_map. split.
  - intros [b [Hb Ht]]. apply in_map_iff in Ht. destruct Ht as [ti [<- Hti]]. now simpl.
  - intros [Hb Ht]. exists (blockIdx t). split; [exact Hb|].
    apply in_map_iff. exists (threadIdx t). split; [now destruct t | exact Ht].
Qed.

(** Every cell with [1 <= iy <= ny] and [0 <= ix < nx] has its thread in the
    launch of [main]. *)
Lemma cell_thread_launched nx ny iy ix :
  0 <= ix < nx -> 1 <= iy <= ny ->
  exists t, In t (grid_threads (dim_grid nx ny) dim_block) /\
            thread_iy dim_block t = iy /\ thread_ix dim_block t = ix.
Proof.
  intros Hx Hy.
  exists {| blockIdx := {| dim_x := ix / 32; dim_y := (iy - 1) / 4 |};
            threadIdx := {| dim_x := ix mod 32; dim_y := (iy - 1) mod 4 |} |}.
  split; [|split].
  - apply in_grid_threads. split.
    + apply in_grid_blocks. cbn [blockIdx dim_x dim_y dim_grid].
      rewrite !Z.quot_div_nonneg by lia.
      pose proof (Z.div_pos ix 32). pose proof (Z.div_pos (iy - 1) 4).
      split; (split; [lia|]); apply Z.div_lt_upper_bound; try lia.
      * pose proof (Z.mod_pos_bound (nx + 32 - 1) 32).
        pose proof (Z.div_mod (nx + 32 - 1) 32). lia.
      * pose proof (Z.mod_pos_bound (ny + 4 - 1) 4).
        pose proof (Z.div_mod (ny + 4 - 1) 4). lia.
    + apply in_block_threads. cbn [threadIdx dim_x dim_y dim_block].
      pose proof (Z.mod_pos_bound ix 32). pose proof (Z.mod_pos_bound (iy - 1) 4). lia.
  - unfold thread_iy. cbn [blockIdx threadIdx dim_x dim_y dim_block].
    pose proof (Z.div_mod (iy - 1) 4). lia.
  - unfold thread_ix. cbn [blockIdx threadIdx dim_x dim_y dim_block].
    pose proof (Z.div_mod ix 32). lia.
Qed.

Lemma launched_thread_coords g bd t :
  In t (grid_threads g bd) -> 0 < dim_x bd -> 0 < dim_y bd ->
  1 <= thread_iy bd t /\ 0 <= thread_ix bd t.
Proof.
  intros Ht Hbx Hby. apply in_grid_threads in Ht. destruct Ht as [Hb Hti].
  apply in_grid_blocks in Hb. apply in_block_threads in Hti.
  unfold thread_iy, thread_ix. nia.
Qed.

(** Row-major offsets identify the cell. *)
Lemma offset_inj nx iy ix iy' ix' :
  0 <= ix < nx -> 0 <= ix' < nx -> iy * nx + ix = iy' * nx + ix' ->
  iy = iy' /\ ix = ix'.
Proof. intros Hx Hx' E. assert (iy = iy') by nia. subst. lia. Qed.

(* ===================================================================== *)
(** ** The fuel of the device loops is enough *)
(* ===================================================================== *)

Section Fuel.

Context {real : Type} {RA : RealArith real}.
Variable boundary_sin : Z -> Z -> real.

Lemma reduce_level_length n : forall l : list real,
  (length l <= n)%nat ->
  (length (reduce_level l) <= length l)%nat /\
  (forall x y rest, l = x :: y :: rest -> (length (reduce_level l) < length l)%nat).
Proof.
  induction n as [|n IH]; intros l Hlen.
  - destruct l; [|cbn in Hlen; lia]. cbn. split; auto. discriminate.
  - destruct l as [|x [|y rest]].
    + cbn. split; auto. discriminate.
    + cbn. split; auto. discriminate.
    + destruct (IH rest) as (Hl & _); [cbn in Hlen; lia|].
      cbn [reduce_level length]. split; [lia | intros; lia].
Qed.

(** The tree reduction of a block never runs out of fuel: any amount at
    least the length of the list gives the same result. *)
Lemma tree_reduce_fuel f1 : forall f2 (l : list real),
  (length l <= f1)%nat -> (length l <= f2)%nat ->
  tree_reduce f1 l = tree_reduce f2 l.
Proof.
  induction f1 as [|f1 IH]; intros f2 l H1 H2.
  - destruct l; [|cbn in H1; lia]. now destruct f2.
  - destruct l as [|x [|y rest]].
    + now destruct f2.
    + now destruct f2.
    + destruct f2 as [|f2]; [cbn in H2; lia|].
      destruct (reduce_level_length (length (x :: y :: rest)) (x :: y :: rest))
        as (_ & Hlt); [lia|].
      specialize (Hlt x y rest eq_refl).
      change (tree_reduce (S f1) (x :: y :: rest))
        with (tree_reduce f1 (reduce_level (x :: y :: rest))).
      change (tree_reduce (S f2) (x :: y :: rest))
        with (tree_reduce f2 (reduce_level (x :: y :: rest))).
      apply IH; lia.
Qed.

(** The grid-stride loop of the initialisation kernel ends within its
    fuel: with a positive stride, any amount at least [ny - iy] gives the
    same stores. *)
Lemma initialize_boundaries_loop_fuel f1 : forall f2 iy stride nx ny,
  1 <= stride ->
  ny - iy <= Z.of_nat f1 -> ny - iy <= Z.of_nat f2 ->
  initialize_boundaries_loop boundary_sin f1 iy stride nx ny =
  initialize_boundaries_loop boundary_sin f2 iy stride nx ny.
Proof.
  induction f1 as [|f1 IH]; intros f2 iy stride nx ny Hs H1 H2.
  - destruct f2 as [|f2]; [reflexivity|]. cbn [initialize_boundaries_loop].
    destruct (Z.ltb_spec iy ny); [lia | reflexivity].
  - cbn [initialize_boundaries_loop].
    destruct (Z.ltb_spec iy ny) as [Hlt|Hge].
    + destruct f2 as [|f2]; [lia|]. cbn [initialize_boundaries_loop].
      destruct (Z.ltb_spec iy ny); [|lia].
      rewrite (IH f2 (iy + stride) stride nx ny) by lia. reflexivity.
    + destruct f2 as [|f2]; [reflexivity|]. cbn [initialize_boundaries_loop].
      destruct (Z.ltb_spec iy ny); [lia | reflexivity].
Qed.

End Fuel.

(* ===================================================================== *)
(** ** The stores of the stencil kernel *)
(* ===================================================================== *)

Section KernelStores.

Context {real : Type} {RA : RealArith real}.

Lemma jacobi_thread_stores bd t (a : buffer real) is_ ie nx j v :
  In (j, v) (fst (jacobi_thread bd t a is_ ie nx)) <->
  thread_iy bd t < ie /\ 1 <= thread_ix bd t < nx - 1 /\
  v = stencil a nx (thread_iy bd t) (thread_ix bd t) /\
  (j = thread_iy bd t * nx + thread_ix bd t \/
   (is_ = thread_iy bd t /\ j = ie * nx + thread_ix bd t) \/
   (ie - 1 = thread_iy bd t /\ j = (is_ - 1) * nx + thread_ix bd t)).
Proof.
  unfold jacobi_thread, stencil.
  set (iy := thread_iy bd t). set (ix := thread_ix bd t).
  destruct (Z.ltb_spec iy ie) as [Hy|Hy]; [|simpl; split; [tauto | lia]].
  destruct (Z.leb_spec 1 ix) as [Hx1|Hx1]; [|simpl; split; [tauto | lia]].
  destruct (Z.ltb_spec ix (nx - 1)) as [Hx2|Hx2]; [|simpl; split; [tauto | lia]].
  cbn [andb fst].
  destruct (Z.eqb_spec is_ iy) as [E1|E1]; destruct (Z.eqb_spec (ie - 1) iy) as [E2|E2];
    cbn [app In]; split.
  all: try (intros [E|[E|[E|[]]]]; injection E as <- <-; repeat split; auto; lia).
  all: try (intros [E|[E|[]]]; injection E as <- <-; repeat split; auto; lia).
  all: try (intros [E|[]]; injection E as <- <-; repeat split; auto; lia).
  all: intros (_ & _ & -> & [->|[[? ->]|[? ->]]]); auto; try lia.
Qed.

Lemma kernel_stores_in bd (order : list thread) (a : buffer real) is_ ie nx w :
  In w (flat_map (fun t => fst (jacobi_thread bd t a is_ ie nx)) order) <->
  exists t, In t order /\ In w (fst (jacobi_thread bd t a is_ ie nx)).
Proof. apply in_flat_map. Qed.

(** After a launch of [main]'s geometry, an offset written by some thread
    holds the stencil value of that thread's cell: no two threads store
    to the same offset. *)
Lemma launch_jacobi_cell nx ny s (a_new a : buffer real) l2 iy ix :
  valid_schedule (dim_grid nx ny) dim_block s ->
  1 <= ix <= nx - 2 -> 1 <= iy < ny - 1 ->
  fst (launch_jacobi nx ny s a_new a l2) (iy * nx + ix) = stencil a nx iy ix /\
  (iy = 1 ->
     fst (launch_jacobi nx ny s a_new a l2) ((ny - 1) * nx + ix) = stencil a nx iy ix) /\
  (iy = ny - 2 ->
     fst (launch_jacobi nx ny s a_new a l2) (0 * nx + ix) = stencil a nx iy ix).
Proof.
  intros [Hperm _] Hx Hy.
  destruct (cell_thread_launched nx ny iy ix) as (t & Ht & Hty & Htx); [lia | lia |].
  apply (Permutation_in _ Hperm) in Ht.
  assert (Hcoords : forall t', In t' (thread_order s) ->
            1 <= thread_iy dim_block t' /\ 0 <= thread_ix dim_block t').
  { intros t' Ht'. apply (Permutation_in _ (Permutation_sym Hperm)) in Ht'.
    apply (launched_thread_coords _ _ _ Ht'); reflexivity. }
  unfold launch_jacobi, jacobi_kernel, iy_start, iy_end. cbn [fst].
  split; [|split]; [|intros Hedge|intros Hedge].
  all: apply apply_stores_agree.
  all: try (exists (iy * nx + ix, stencil a nx iy ix); split; [|reflexivity];
            apply kernel_stores_in; exists t; split; [exact Ht|];
            apply jacobi_thread_stores; rewrite Hty, Htx; repeat split; auto; lia).
  all: try (exists ((ny - 1) * nx + ix, stencil a nx iy ix); split; [|reflexivity];
            apply kernel_stores_in; exists t; split; [exact Ht|];
            apply jacobi_thread_stores; rewrite Hty, Htx; repeat split; auto; lia).
  all: try (exists (0 * nx + ix, stencil a nx iy ix); split; [|reflexivity];
            apply kernel_stores_in; exists t; split; [exact Ht|];
            apply jacobi_thread_stores; rewrite Hty, Htx; repeat split; auto; lia).
  all: intros [j v] Hin Hj; cbn [fst snd] in *;
       apply kernel_stores_in in Hin; destruct Hin as (t' & Ht' & Hin);
       apply jacobi_thread_stores in Hin;
       destruct Hin as (Hy' & Hx' & -> & Hcases);
       destruct (Hcoords t' Ht') as [Hy1 Hx0];
       set (iy' := thread_iy dim_block t') in *;
       set (ix' := thread_ix dim_block t') in *;
       destruct Hcases as [->|[[Hs ->]|[He ->]]].
  all: try (apply offset_inj in Hj; [destruct Hj as [-> ->]; reflexivity | lia | lia]).
  all: try (apply offset_inj in Hj; [exfalso; lia | lia | lia]).
  all: try (replace (1 - 1) with 0 in Hj by lia;
            apply offset_inj in Hj; [exfalso; lia | lia | lia]).
  all: try (apply offset_inj in Hj; [destruct Hj as [_ ->]; f_equal; lia | lia | lia]).
  all: replace (1 - 1) with 0 in Hj by lia;
       apply offset_inj in Hj; [destruct Hj as [_ ->]; f_equal; lia | lia | lia].
Qed.

(** Offsets outside the interior columns of rows [0 .. ny-1] are not
    stored to. *)
Lemma launch_jacobi_untouched nx ny s (a_new a : buffer real) l2 j :
  valid_schedule (dim_grid nx ny) dim_block s ->
  (forall iy ix, 1 <= ix <= nx - 2 -> 0 <= iy <= ny - 1 -> j <> iy * nx + ix) ->
  fst (launch_jacobi nx ny s a_new a l2) j = a_new j.
Proof.
  intros [Hperm _] Hout.
  unfold launch_jacobi, jacobi_kernel, iy_start, iy_end. cbn [fst].
  apply apply_stores_untouched. intros [j' v] Hin E. cbn [fst] in E. subst j'.
  apply kernel_stores_in in Hin. destruct Hin as (t' & Ht' & Hin).
  apply jacobi_thread_stores in Hin. destruct Hin as (Hy' & Hx' & _ & Hcases).
  apply (Permutation_in _ (Permutation_sym Hperm)) in Ht'.
  destruct (launched_thread_coords _ _ _ Ht') as [Hy1 Hx0]; [reflexivity | reflexivity |].
  destruct Hcases as [E|[[Hs E]|[He E]]]; revert E; apply Hout; lia.
Qed.

End KernelStores.

(* ===================================================================== *)
(** ** Enumerations without repetition *)
(* ===================================================================== *)

Lemma NoDup_flat_map_map {A B C} (g : A -> B -> C) (la : list A) (lb : list B) :
  (forall a b a' b', g a b = g a' b' -> a = a' /\ b = b') ->
  NoDup la -> NoDup lb ->
  NoDup (flat_map (fun a => map (g a) lb) la).
Proof.
  intros Hinj Hla Hlb. induction Hla as [|a la Hnotin Hla IH]; [constructor|].
  cbn [flat_map]. apply NoDup_app.
  - apply Injective_map_NoDup; [|exact Hlb].
    intros b b' E. now apply Hinj in E.
  - exact IH.
  - intros c Hc Hc'. apply in_map_iff in Hc. destruct Hc as (b & <- & _).
    apply in_flat_map in Hc'. destruct Hc' as (a' & Ha' & Hc').
    apply in_map_iff in Hc'. destruct Hc' as (b' & E & _).
    apply Hinj in E. destruct E as [-> _]. contradiction.
Qed.

Lemma NoDup_grid_blocks g : NoDup (grid_blocks g).
Proof.
  unfold grid_blocks.
  apply (NoDup_flat_map_map (fun by_ bx => {| dim_x := bx; dim_y := by_ |})).
  - intros a b a' b' E. now injection E as -> ->.
  - apply NoDup_zrange.
  - apply NoDup_zrange.
Qed.

Lemma NoDup_block_threads bd : NoDup (block_threads bd).
Proof. apply (NoDup_grid_blocks bd). Qed.

Lemma NoDup_grid_threads g bd : NoDup (grid_threads g bd).
Proof.
  unfold grid_threads.
  apply (NoDup_flat_map_map (fun b t => {| blockIdx := b; threadIdx := t |})).
  - intros a b a' b' E. now injection E as -> ->.
  - apply NoDup_grid_blocks.
  - apply NoDup_block_threads.
Qed.

Lemma thread_cell_inj g bd t t' :
  In t (grid_threads g bd) -> In t' (grid_threads g bd) ->
  thread_cell bd t = thread_cell bd t' -> t = t'.
Proof.
  intros Ht Ht' E.
  apply in_grid_threads in Ht, Ht'. destruct Ht as [Hb Hti], Ht' as [Hb' Hti'].
  apply in_grid_blocks in Hb, Hb'. apply in_block_threads in Hti, Hti'.
  unfold thread_cell, thread_iy, thread_ix in E. injection E as Ey Ex.
  destruct t as [[bx by_] [tx ty]], t' as [[bx' by'] [tx' ty']].
  cbn [blockIdx threadIdx dim_x dim_y] in *.
  assert (by_ = by') by nia. assert (bx = bx') by nia.
  subst. f_equal; f_equal; lia.
Qed.

Lemma in_interior_cells nx ny iy ix :
  In (iy, ix) (interior_cells nx ny) <-> interior nx ny iy ix.
Proof.
  unfold interior_cells, interior. rewrite in_prod_iff, !in_zinterval. lia.
Qed.

Lemma NoDup_list_prod' {A B} (la : list A) (lb : list B) :
  NoDup la -> NoDup lb -> NoDup (list_prod la lb).
Proof.
  intros Hla Hlb.
  assert (E : list_prod la lb = flat_map (fun a => map (pair a) lb) la).
  { induction la as [|a la IH]; [reflexivity|]. cbn. f_equal.
    apply IH. now inversion Hla. }
  rewrite E. apply NoDup_flat_map_map; auto.
  intros a b a' b' Eq. now injection Eq as -> ->.
Qed.

(** In [main]'s launch the active threads are in one-to-one correspondence
    with the interior cells. *)
Lemma active_threads_interior nx ny :
  Permutation
    (map (thread_cell dim_block)
         (filter (thread_active dim_block (iy_end ny) nx)
                 (grid_threads (dim_grid nx ny) dim_block)))
    (interior_cells nx ny).
Proof.
  apply NoDup_Permutation.
  - apply NoDup_map_NoDup_ForallPairs.
    + intros t t' Ht Ht'. apply filter_In in Ht, Ht'.
      apply (thread_cell_inj (dim_grid nx ny)); tauto.
    + apply NoDup_filter, NoDup_grid_threads.
  - apply NoDup_list_prod'; apply NoDup_zinterval.
  - intros [iy ix]. rewrite in_interior_cells, in_map_iff. unfold interior, iy_start, iy_end.
    split.
    + intros (t & E & Ht). apply filter_In in Ht. destruct Ht as [Ht Hact].
      injection E as <- <-.
      destruct (launched_thread_coords _ _ _ Ht) as [Hy1 _]; [reflexivity | reflexivity |].
      unfold thread_active, iy_end in Hact.
      apply andb_prop in Hact. destruct Hact as [Hy Hx].
      apply andb_prop in Hx. destruct Hx as [Hx1 Hx2].
      apply Z.ltb_lt in Hy, Hx2. apply Z.leb_le in Hx1. lia.
    + intros [Hx Hy].
      destruct (cell_thread_launched nx ny iy ix) as (t & Ht & Hty & Htx); [lia | lia |].
      exists t. split; [unfold thread_cell; now rewrite Hty, Htx|].
      apply filter_In. split; [exact Ht|].
      unfold thread_active, iy_end. rewrite Hty, Htx.
      apply andb_true_intro. split; [apply Z.ltb_lt; lia|].
      apply andb_true_intro. split; [apply Z.leb_le | apply Z.ltb_lt]; lia.
Qed.

(* ===================================================================== *)
(** ** The residual reduction over exact arithmetic *)
(* ===================================================================== *)

Section Sums.

Context {real : Type} {RA : RealArith real}.

Lemma jacobi_thread_local bd t (a : buffer real) is_ ie nx :
  snd (jacobi_thread bd t a is_ ie nx) =
  if thread_active bd ie nx t
  then residual2 a nx (thread_iy bd t) (thread_ix bd t) else r0.
Proof.
  unfold jacobi_thread, thread_active, residual2, stencil.
  destruct (thread_iy bd t <? ie); [|reflexivity].
  destruct ((1 <=? thread_ix bd t) && (thread_ix bd t <? nx - 1)); reflexivity.
Qed.

(** Exact arithmetic: addition is associative and commutative and [0.0]
    is neutral (none of which holds for binary32). *)
Hypothesis radd_assoc : forall x y z : real, radd x (radd y z) = radd (radd x y) z.
Hypothesis radd_comm : forall x y : real, radd x y = radd y x.
Hypothesis radd_0_l : forall x : real, radd r0 x = x.

Lemma radd_0_r x : radd x r0 = x.
Proof. now rewrite radd_comm. Qed.

Lemma rsum_app l1 l2 : rsum (l1 ++ l2) = radd (rsum l1) (rsum l2).
Proof.
  induction l1 as [|x l1 IH]; cbn.
  - now rewrite radd_0_l.
  - unfold rsum in *. now rewrite IH, radd_assoc.
Qed.

Lemma rsum_perm l1 l2 : Permutation l1 l2 -> rsum l1 = rsum l2.
Proof.
  induction 1 as [|x l1 l2 _ IH|x y l|l1 l2 l3 _ IH1 _ IH2]; cbn.
  - reflexivity.
  - unfold rsum in *. now rewrite IH.
  - fold (rsum l). rewrite !radd_assoc. f_equal. apply radd_comm.
  - congruence.
Qed.

Lemma rsum_flat_map {A B} (g : B -> real) (h : A -> list B) (l : list A) :
  rsum (map g (flat_map h l)) = rsum (map (fun x => rsum (map g (h x))) l).
Proof.
  induction l as [|x l IH]; [reflexivity|].
  cbn [flat_map map]. rewrite map_app, rsum_app, IH. reflexivity.
Qed.

Lemma rsum_filter {A} (p : A -> bool) (g : A -> real) (l : list A) :
  rsum (map (fun x => if p x then g x else r0) l) = rsum (map g (filter p l)).
Proof.
  induction l as [|x l IH]; [reflexivity|].
  cbn [map filter]. destruct (p x); cbn [map]; unfold rsum in *; cbn [fold_right].
  - now rewrite IH.
  - now rewrite IH, radd_0_l.
Qed.

(** One level of the tree keeps the sum and does not grow the list. *)
Lemma reduce_level_spec n : forall l : list real,
  (length l <= n)%nat ->
  rsum (reduce_level l) = rsum l /\ (length (reduce_level l) <= length l)%nat /\
  (forall x y rest, l = x :: y :: rest -> (length (reduce_level l) < length l)%nat).
Proof.
  induction n as [|n IH]; intros l Hlen.
  - destruct l; [|cbn in Hlen; lia]. cbn. repeat split; auto. discriminate.
  - destruct l as [|x [|y rest]].
    + cbn. repeat split; auto. discriminate.
    + cbn. repeat split; auto. discriminate.
    + destruct (IH rest) as (Hs & Hl & _); [cbn in Hlen; lia|].
      cbn [reduce_level length]. repeat split.
      * unfold rsum in *. cbn [fold_right]. rewrite Hs. now rewrite radd_assoc.
      * lia.
      * intros. lia.
Qed.

Lemma tree_reduce_sum fuel : forall l : list real,
  (length l <= fuel)%nat -> tree_reduce fuel l = rsum l.
Proof.
  induction fuel as [|fuel IH]; intros l Hlen.
  - destruct l; [reflexivity | cbn in Hlen; lia].
  - destruct l as [|x [|y rest]].
    + reflexivity.
    + cbn. now rewrite radd_0_r.
    + destruct (reduce_level_spec (length (x :: y :: rest)) (x :: y :: rest))
        as (Hs & _ & Hlt); [lia|].
      specialize (Hlt x y rest eq_refl).
      change (tree_reduce (S fuel) (x :: y :: rest))
        with (tree_reduce fuel (reduce_level (x :: y :: rest))).
      rewrite IH by lia. exact Hs.
Qed.

Lemma BlockReduce_Sum_exact (l : list real) : BlockReduce_Sum l = rsum l.
Proof. unfold BlockReduce_Sum. now apply tree_reduce_sum. Qed.

(** A sequence of atomic adds in any order. *)
Lemma atomicAdd_fold {A} (f : A -> real) (l : list A) (acc : real) :
  fold_left (fun acc b => radd acc (f b)) l acc = radd acc (rsum (map f l)).
Proof.
  revert acc. induction l as [|x l IH]; intros acc; cbn.
  - now rewrite radd_0_r.
  - rewrite IH. fold (rsum (map f l)). now rewrite radd_assoc.
Qed.

(** The two-level reduction of a launch equals the plain sum of the
    squared residuals of the interior cells. *)
Lemma launch_jacobi_l2 nx ny s (a_new a : buffer real) l2 :
  valid_schedule (dim_grid nx ny) dim_block s ->
  snd (launch_jacobi nx ny s a_new a l2) =
  radd l2 (rsum (map (fun c => residual2 a nx (fst c) (snd c)) (interior_cells nx ny))).
Proof.
  intros [_ Hperm].
  unfold launch_jacobi, jacobi_kernel. cbn [snd].
  rewrite atomicAdd_fold. f_equal.
  rewrite <- (rsum_perm _ _ (Permutation_map _ Hperm)).
  unfold block_l2_norm.
  erewrite map_ext; [|intros b; apply BlockReduce_Sum_exact].
  erewrite map_ext; [|intros b; rewrite <- (map_map (fun ti => {| blockIdx := b; threadIdx := ti |})
        (fun t => snd (jacobi_thread dim_block t a iy_start (iy_end ny) nx))); reflexivity].
  rewrite <- (rsum_flat_map
                (fun t => snd (jacobi_thread dim_block t a iy_start (iy_end ny) nx))
                (fun b => map (fun ti => {| blockIdx := b; threadIdx := ti |})
                              (block_threads dim_block))).
  fold (grid_threads (dim_grid nx ny) dim_block).
  erewrite map_ext; [|intros t; apply jacobi_thread_local].
  rewrite (rsum_filter (thread_active dim_block (iy_end ny) nx)
             (fun t => residual2 a nx (thread_iy dim_block t) (thread_ix dim_block t))).
  rewrite <- (rsum_perm _ _ (Permutation_map _ (active_threads_interior nx ny))).
  rewrite map_map. reflexivity.
Qed.

End Sums.

Lemma exact_radd_assoc (x y z : Qc) : radd x (radd y z) = radd (radd x y) z.
Proof. cbn. apply Qcplus_assoc. Qed.

Lemma exact_radd_comm (x y : Qc) : radd x y = radd y x.
Proof. cbn. apply Qcplus_comm. Qed.

Lemma exact_radd_0_l (x : Qc) : radd r0 x = x.
Proof. cbn. apply Qcplus_0_l. Qed.

(* ===================================================================== *)
(** ** The graph of the loop in closed form *)
(* ===================================================================== *)

Lemma prev_succ (k : nat) : prev (Z.of_nat (S k)) = curr (Z.of_nat k).
Proof. unfold prev, curr. f_equal. lia. Qed.

Lemma curr_succ (k : nat) : curr (Z.of_nat (S k)) = prev (Z.of_nat k).
Proof.
  unfold prev, curr. rewrite Nat2Z.inj_succ.
  replace (Z.succ (Z.of_nat k) + 1) with (Z.of_nat k + 1 * 2) by lia.
  rewrite !Z.rem_mod_nonneg by lia. apply Z.mod_add. lia.
Qed.

Lemma prev_range (k : nat) : prev (Z.of_nat k) = 0 \/ prev (Z.of_nat k) = 1.
Proof.
  unfold prev. rewrite Z.rem_mod_nonneg by lia.
  pose proof (Z.mod_pos_bound (Z.of_nat k) 2). lia.
Qed.

Lemma curr_prev_ne (k : nat) : curr (Z.of_nat k) <> prev (Z.of_nat k).
Proof.
  unfold prev, curr. rewrite !Z.rem_mod_nonneg by lia.
  pose proof (Z.mod_pos_bound (Z.of_nat k) 2).
  pose proof (Z.mod_pos_bound (Z.of_nat k + 1) 2).
  pose proof (Z.div_mod (Z.of_nat k) 2). pose proof (Z.div_mod (Z.of_nat k + 1) 2). lia.
Qed.

Lemma check_due_nccheck_1 c iter : nccheck c = 1 -> check_due c iter = true.
Proof. intros E. unfold check_due. rewrite E, Z.rem_1_r. reflexivity. Qed.

Lemma event_eqb_refl e : event_eqb e e = true.
Proof. destruct e; cbn; auto using Z.eqb_refl. Qed.

Lemma iteration_step c n rt :
  nccheck c = 1 -> runtime_after n rt ->
  runtime_after (S n) (issue_all (iteration_calls c (Z.of_nat n)) rt) /\
  rt_graph (issue_all (iteration_calls c (Z.of_nat n)) rt) = rt_graph rt ++ iteration_ops n.
Proof.
  intros Hc (Henq & Hpend & Hrec & Hseen & Hcount).
  unfold iteration_calls. rewrite (check_due_nccheck_1 c _ Hc).
  pose proof (curr_prev_ne n) as Hne.
  assert (Hne' : (prev (Z.of_nat n) =? curr (Z.of_nat n)) = false) by (apply Z.eqb_neq; congruence).
  assert (Hwait_reset : rt_recorded rt (reset_l2_norm_done (curr (Z.of_nat n))) =
                        match n with O => [] | S n' => [reset_of n'] end).
  { destruct n as [|n']; [apply Hrec|]. rewrite curr_succ. apply Hrec. }
  assert (Hwait_copy : rt_recorded rt (copy_done (prev (Z.of_nat n))) =
                        match n with O => [] | S n' => [copy_of n'] end).
  { destruct n as [|n']; [apply Hrec|]. rewrite prev_succ. apply Hrec. }
  unfold issue_all. cbn [app fold_left issue enqueue host_access
                          rt_enqueued rt_pending rt_recorded rt_host_seen rt_host_count rt_graph
                          stream_eqb event_eqb].
  rewrite ?Hne'.
  split.
  - unfold runtime_after.
    cbn [rt_enqueued rt_pending rt_recorded rt_host_seen rt_host_count rt_graph].
    repeat split; try (intros s; destruct s);
      cbn [event_eqb stream_eqb]; rewrite ?Z.eqb_refl, ?Henq, ?Hcount;
      unfold kernel_of, copy_of, reset_of, clear_of; try reflexivity.
    + f_equal. f_equal. lia.
    + lia.
  - rewrite <- !app_assoc. f_equal. unfold iteration_ops.
    cbn [app]. rewrite !Henq, !Hpend, Hseen, Hcount, Hwait_reset, Hwait_copy.
    unfold kernel_of, copy_of, reset_of, load_of, clear_of.
    destruct n as [|n']; cbn [app]; repeat f_equal; lia.
Qed.

Lemma loop_calls_succ c n :
  loop_calls c (S n) = loop_calls c n ++ iteration_calls c (Z.of_nat n).
Proof.
  unfold loop_calls. rewrite seq_S, flat_map_app. cbn [flat_map Nat.add].
  now rewrite app_nil_r.
Qed.

Lemma loop_graph_closed c n :
  nccheck c = 1 ->
  runtime_after n (issue_all (loop_calls c n) after_setup) /\
  loop_graph c n = flat_map iteration_ops (seq 0 n).
Proof.
  intros Hc. unfold loop_graph. induction n as [|n [IHrt IHg]].
  - split; [|reflexivity]. unfold runtime_after. cbn. repeat split; auto.
  - rewrite loop_calls_succ. unfold issue_all in *. rewrite fold_left_app.
    destruct (iteration_step c n _ Hc IHrt) as [Hrt Hg]. unfold issue_all in *.
    split; [exact Hrt|].
    rewrite Hg, IHg, seq_S, flat_map_app. cbn [flat_map Nat.add].
    now rewrite app_nil_r.
Qed.

Lemma in_loop_graph c n o :
  nccheck c = 1 ->
  (In o (loop_graph c n) <-> exists k, (k < n)%nat /\ In o (iteration_ops k)).
Proof.
  intros Hc. destruct (loop_graph_closed c n Hc) as [_ ->].
  rewrite in_flat_map. split; intros (k & Hk & Ho); exists k; split; auto.
  - apply in_seq in Hk. lia.
  - apply in_seq. lia.
Qed.

(* ===================================================================== *)
(** ** What an admissible execution satisfies *)
(* ===================================================================== *)

Section Orders.

Variable c : config.
Variable n : nat.
Variable t : timing.
Hypothesis Hnccheck : nccheck c = 1.
Hypothesis Hadm : admissible (loop_graph c n) t.

Local Abbreviation start := (t_start t).
Local Abbreviation finish := (t_finish t).

Lemma op_runs k o : (k < n)%nat -> In o (iteration_ops k) ->
  (start (op_node o) <= finish (op_node o))%nat /\
  (forall w, In w (op_waits o) -> (finish w <= start (op_node o))%nat).
Proof.
  intros Hk Ho. apply Hadm. apply in_loop_graph; [exact Hnccheck|]. now exists k.
Qed.

Lemma iteration_orders k : (k < n)%nat ->
  ((start (kernel_of k) <= finish (kernel_of k))%nat /\
   (start (copy_of k) <= finish (copy_of k))%nat /\
   (start (load_of k) <= finish (load_of k))%nat /\
   (start (clear_of k) <= finish (clear_of k))%nat /\
   (start (reset_of k) <= finish (reset_of k))%nat) /\
  ((finish (kernel_of k) <= start (copy_of k))%nat /\
   (finish (load_of k) <= start (clear_of k))%nat /\
   (finish (clear_of k) <= start (reset_of k))%nat) /\
  match k with
  | O => (finish Setup <= start (kernel_of O))%nat /\
         (finish Setup <= start (load_of O))%nat
  | S j => (finish (kernel_of j) <= start (kernel_of k))%nat /\
           (finish (reset_of j) <= start (kernel_of k))%nat /\
           (finish (copy_of j) <= start (copy_of k))%nat /\
           (finish (clear_of j) <= start (load_of k))%nat /\
           (finish (copy_of j) <= start (load_of k))%nat /\
           (finish (reset_of j) <= start (reset_of k))%nat
  end.
Proof.
  intros Hk.
  assert (F : Forall (fun o =>
              (start (op_node o) <= finish (op_node o))%nat /\
              (forall w, In w (op_waits o) -> (finish w <= start (op_node o))%nat))
            (iteration_ops k)).
  { apply Forall_forall. intros o Ho. now apply (op_runs k). }
  unfold iteration_ops in F. rewrite !Forall_cons_iff in F.
  cbn [op_node op_waits] in F.
  destruct F as ((Rk & Wk) & (Rc & Wc) & (Rl & Wl) & (Rcl & Wcl) & (Rr & Wr) & _).
  split; [auto|]. split.
  - repeat split.
    + apply Wc. destruct k; cbn; auto.
    + apply Wcl. cbn; auto.
    + apply Wr. destruct k; cbn; auto.
  - destruct k as [|j].
    + split; [apply Wk | apply Wl]; cbn; auto.
    + repeat split; [apply Wk | apply Wk | apply Wc | apply Wl | apply Wl | apply Wr];
        cbn; auto.
Qed.

Lemma kernel_runs k : (k < n)%nat -> (start (kernel_of k) <= finish (kernel_of k))%nat.
Proof. intros Hk. apply (iteration_orders k Hk). Qed.

Lemma copy_runs k : (k < n)%nat -> (start (copy_of k) <= finish (copy_of k))%nat.
Proof. intros Hk. apply (iteration_orders k Hk). Qed.

Lemma load_runs k : (k < n)%nat -> (start (load_of k) <= finish (load_of k))%nat.
Proof. intros Hk. apply (iteration_orders k Hk). Qed.

Lemma clear_runs k : (k < n)%nat -> (start (clear_of k) <= finish (clear_of k))%nat.
Proof. intros Hk. apply (iteration_orders k Hk). Qed.

Lemma reset_runs k : (k < n)%nat -> (start (reset_of k) <= finish (reset_of k))%nat.
Proof. intros Hk. apply (iteration_orders k Hk). Qed.

(** (b) the compute of an iteration finishes before its copy starts. *)
Lemma kernel_before_copy k : (k < n)%nat -> (finish (kernel_of k) <= start (copy_of k))%nat.
Proof. intros Hk. apply (iteration_orders k Hk). Qed.

Lemma load_before_clear k : (k < n)%nat -> (finish (load_of k) <= start (clear_of k))%nat.
Proof. intros Hk. apply (iteration_orders k Hk). Qed.

Lemma clear_before_reset k : (k < n)%nat -> (finish (clear_of k) <= start (reset_of k))%nat.
Proof. intros Hk. apply (iteration_orders k Hk). Qed.

(** (a) the reset issued by an iteration finishes before the compute of
    the next iteration starts. *)
Lemma reset_before_next_kernel k :
  (S k < n)%nat -> (finish (reset_of k) <= start (kernel_of (S k)))%nat.
Proof. intros Hk. apply (iteration_orders (S k) Hk). Qed.

Lemma kernel_before_next_kernel k :
  (S k < n)%nat -> (finish (kernel_of k) <= start (kernel_of (S k)))%nat.
Proof. intros Hk. apply (iteration_orders (S k) Hk). Qed.

Lemma copy_before_next_copy k :
  (S k < n)%nat -> (finish (copy_of k) <= start (copy_of (S k)))%nat.
Proof. intros Hk. apply (iteration_orders (S k) Hk). Qed.

(** (c) the copy of an iteration finishes before the host reads the
    mirror in the next iteration. *)
Lemma copy_before_next_load k :
  (S k < n)%nat -> (finish (copy_of k) <= start (load_of (S k)))%nat.
Proof. intros Hk. apply (iteration_orders (S k) Hk). Qed.

Lemma clear_before_next_load k :
  (S k < n)%nat -> (finish (clear_of k) <= start (load_of (S k)))%nat.
Proof. intros Hk. apply (iteration_orders (S k) Hk). Qed.

Lemma reset_before_next_reset k :
  (S k < n)%nat -> (finish (reset_of k) <= start (reset_of (S k)))%nat.
Proof. intros Hk. apply (iteration_orders (S k) Hk). Qed.

(** Operations that follow each other step by step are ordered at any
    distance. *)
Lemma chain (f : nat -> node) :
  (forall k, (k < n)%nat -> (start (f k) <= finish (f k))%nat) ->
  (forall k, (S k < n)%nat -> (finish (f k) <= start (f (S k)))%nat) ->
  forall i j, (i < j)%nat -> (j < n)%nat -> (finish (f i) <= start (f j))%nat.
Proof.
  intros Hrun Hstep i j Hij. induction j as [|j IH]; intros Hj; [lia|].
  destruct (Nat.eq_dec i j) as [->|Hne].
  - now apply Hstep.
  - specialize (IH ltac:(lia) ltac:(lia)).
    pose proof (Hrun j ltac:(lia)). pose proof (Hstep j Hj). lia.
Qed.

Lemma kernels_in_order i j :
  (i < j)%nat -> (j < n)%nat -> (finish (kernel_of i) <= start (kernel_of j))%nat.
Proof. apply chain; [apply kernel_runs | apply kernel_before_next_kernel]. Qed.

Lemma copies_in_order i j :
  (i < j)%nat -> (j < n)%nat -> (finish (copy_of i) <= start (copy_of j))%nat.
Proof. apply chain; [apply copy_runs | apply copy_before_next_copy]. Qed.

Lemma resets_in_order i j :
  (i < j)%nat -> (j < n)%nat -> (finish (reset_of i) <= start (reset_of j))%nat.
Proof. apply chain; [apply reset_runs | apply reset_before_next_reset]. Qed.

Lemma loads_in_order i j :
  (i < j)%nat -> (j < n)%nat -> (finish (load_of i) <= start (load_of j))%nat.
Proof.
  apply chain; [apply load_runs|]. intros k Hk.
  pose proof (load_before_clear k ltac:(lia)). pose proof (clear_runs k ltac:(lia)).
  pose proof (clear_before_next_load k Hk). lia.
Qed.

Lemma load_before_later_kernel k i :
  (k < i)%nat -> (i < n)%nat -> (finish (load_of k) <= start (kernel_of i))%nat.
Proof.
  intros Hki Hi.
  pose proof (load_before_clear k ltac:(lia)). pose proof (clear_runs k ltac:(lia)).
  pose proof (clear_before_reset k ltac:(lia)). pose proof (reset_runs k ltac:(lia)).
  pose proof (reset_before_next_kernel k ltac:(lia)).
  destruct (Nat.eq_dec (S k) i) as [<-|Hne]; [lia|].
  pose proof (kernel_runs (S k) ltac:(lia)).
  pose proof (kernels_in_order (S k) i ltac:(lia) Hi). lia.
Qed.

Lemma copy_before_later_load k i :
  (k < i)%nat -> (i < n)%nat -> (finish (copy_of k) <= start (load_of i))%nat.
Proof.
  intros Hki Hi.
  pose proof (copy_before_next_load k ltac:(lia)).
  destruct (Nat.eq_dec (S k) i) as [<-|Hne]; [lia|].
  pose proof (load_runs (S k) ltac:(lia)).
  pose proof (loads_in_order (S k) i ltac:(lia) Hi). lia.
Qed.

Lemma clear_before_later_kernel k i :
  (k < i)%nat -> (i < n)%nat -> (finish (clear_of k) <= start (kernel_of i))%nat.
Proof.
  intros Hki Hi.
  pose proof (load_before_later_kernel k i Hki Hi).
  pose proof (clear_before_reset k ltac:(lia)). pose proof (reset_runs k ltac:(lia)).
  pose proof (reset_before_next_kernel k ltac:(lia)).
  destruct (Nat.eq_dec (S k) i) as [<-|Hne]; [lia|].
  pose proof (kernel_runs (S k) ltac:(lia)).
  pose proof (kernels_in_order (S k) i ltac:(lia) Hi). lia.
Qed.

Lemma load_before_later_reset k i :
  (k <= i)%nat -> (i < n)%nat -> (finish (load_of k) <= start (reset_of i))%nat.
Proof.
  intros Hki Hi.
  pose proof (load_before_clear i Hi). pose proof (clear_runs i Hi).
  pose proof (clear_before_reset i Hi).
  destruct (Nat.eq_dec k i) as [->|Hne]; [lia|].
  pose proof (loads_in_order k i ltac:(lia) Hi). pose proof (load_runs i Hi). lia.
Qed.

(** The operations of the graph that write a slot or a mirror. *)
Lemma writers o l :
  In o (loop_graph c n) -> In l (writes (op_call o)) ->
  exists i, (i < n)%nat /\
    ((op_node o = kernel_of i /\ l = loc_d (curr (Z.of_nat i))) \/
     (op_node o = copy_of i /\ l = loc_h (curr (Z.of_nat i))) \/
     (op_node o = clear_of i /\ l = loc_h (prev (Z.of_nat i))) \/
     (op_node o = reset_of i /\ l = loc_d (prev (Z.of_nat i)))).
Proof.
  intros Ho Hl. apply in_loop_graph in Ho; [|exact Hnccheck].
  destruct Ho as (i & Hi & Ho). exists i. split; [exact Hi|].
  unfold iteration_ops in Ho. cbn [In] in Ho.
  destruct Ho as [<-|[<-|[<-|[<-|[<-|[]]]]]]; cbn [op_call op_node writes In] in *;
    try contradiction; destruct Hl as [<-|[]]; auto 10.
Qed.

(** Successive iterations use different slots. *)
Lemma curr_eq_not_adjacent i j :
  curr (Z.of_nat i) = curr (Z.of_nat j) -> i <> S j /\ j <> S i.
Proof.
  intros E. split; intros ->.
  - rewrite curr_succ in E. now apply (curr_prev_ne j).
  - rewrite curr_succ in E. now apply (curr_prev_ne i).
Qed.

Lemma prev_eq_curr_distinct i j :
  prev (Z.of_nat i) = curr (Z.of_nat j) -> i <> j.
Proof. intros E ->. now apply (curr_prev_ne j). Qed.

(** From the start of the copy of iteration [j] to the end of the load of
    iteration [j + 1], nothing else writes the mirror that is copied to. *)
Lemma mirror_stable j o :
  (S j < n)%nat -> In o (loop_graph c n) ->
  In (loc_h (curr (Z.of_nat j))) (writes (op_call o)) ->
  op_node o = copy_of j \/
  (finish (op_node o) <= start (copy_of j))%nat \/
  (finish (load_of (S j)) <= start (op_node o))%nat.
Proof.
  intros Hj Ho Hl. destruct (writers o _ Ho Hl) as (i & Hi & Hcase).
  destruct Hcase as [[_ E]|[[-> E]|[[-> E]|[_ E]]]]; try discriminate.
  - injection E as E. apply eq_sym, curr_eq_not_adjacent in E.
    destruct (Nat.lt_trichotomy i j) as [Hlt|[->|Hgt]]; [right; left|now left|right; right].
    + apply copies_in_order; lia.
    + pose proof (load_before_later_kernel (S j) i ltac:(lia) Hi).
      pose proof (kernel_runs i Hi). pose proof (kernel_before_copy i Hi). lia.
  - injection E as E. apply eq_sym, prev_eq_curr_distinct in E.
    destruct (Nat.lt_trichotomy i j) as [Hlt|[->|Hgt]]; [right; left|contradiction|right; right].
    + pose proof (clear_before_later_kernel i j Hlt ltac:(lia)).
      pose proof (kernel_runs j ltac:(lia)). pose proof (kernel_before_copy j ltac:(lia)). lia.
    + pose proof (load_before_clear i Hi).
      destruct (Nat.eq_dec (S j) i) as [<-|Hne]; [lia|].
      pose proof (loads_in_order (S j) i ltac:(lia) Hi). pose proof (load_runs i Hi). lia.
Qed.

(** From the reset issued one iteration earlier (from the set-up, for the
    first iteration) to the end of the copy of iteration [j], the only
    operation that writes the slot is the compute of iteration [j]. *)
Lemma slot_accumulates_one_compute j o :
  (j < n)%nat -> In o (loop_graph c n) ->
  In (loc_d (curr (Z.of_nat j))) (writes (op_call o)) ->
  op_node o = kernel_of j \/
  match j with
  | O => False
  | S j' => op_node o = reset_of j' \/ (finish (op_node o) <= start (reset_of j'))%nat
  end \/
  (finish (copy_of j) <= start (op_node o))%nat.
Proof.
  intros Hj Ho Hl. destruct (writers o _ Ho Hl) as (i & Hi & Hcase).
  destruct Hcase as [[-> E]|[[_ E]|[[_ E]|[-> E]]]]; try discriminate.
  - injection E as E. apply eq_sym, curr_eq_not_adjacent in E.
    destruct (Nat.lt_trichotomy i j) as [Hlt|[->|Hgt]]; [right; left|now left|right; right].
    + destruct j as [|j']; [lia|]. right.
      pose proof (kernel_before_copy i Hi). pose proof (copy_runs i Hi).
      pose proof (copy_before_later_load i j' ltac:(lia) ltac:(lia)).
      pose proof (load_runs j' ltac:(lia)).
      pose proof (load_before_later_reset j' j' ltac:(lia) ltac:(lia)). lia.
    + pose proof (copy_before_later_load j (S j) ltac:(lia) ltac:(lia)).
      pose proof (load_runs (S j) ltac:(lia)).
      pose proof (load_before_later_kernel (S j) i ltac:(lia) Hi). lia.
  - injection E as E. apply eq_sym, prev_eq_curr_distinct in E.
    destruct (Nat.lt_trichotomy i j) as [Hlt|[->|Hgt]]; [right; left|contradiction|right; right].
    + destruct j as [|j']; [lia|].
      destruct (Nat.eq_dec i j') as [->|Hne]; [now left | right].
      apply resets_in_order; lia.
    + pose proof (copy_before_later_load j i Hgt Hi). pose proof (load_runs i Hi).
      pose proof (load_before_later_reset i i ltac:(lia) Hi). lia.
Qed.

(** Nothing writes the mirror read by the first iteration before that
    read is over, and no compute has accumulated into its slot. *)
Lemma first_load_reads_setup o :
  (0 < n)%nat -> In o (loop_graph c n) ->
  In (loc_h (prev 0)) (writes (op_call o)) \/ In (loc_d (prev 0)) (writes (op_call o)) ->
  (finish (load_of 0) <= start (op_node o))%nat.
Proof.
  intros Hn Ho Hl.
  assert (Hw : exists l, In l (writes (op_call o)) /\ (l = loc_h (prev 0) \/ l = loc_d (prev 0))).
  { destruct Hl; eauto. }
  destruct Hw as (l & Hl' & Hloc).
  destruct (writers o _ Ho Hl') as (i & Hi & Hcase).
  destruct Hcase as [[-> E]|[[-> E]|[[-> E]|[-> E]]]]; subst l;
    destruct Hloc as [E|E]; try discriminate; injection E as E.
  - destruct i as [|i]; [exfalso; now apply (curr_prev_ne 0)|].
    apply load_before_later_kernel; lia.
  - destruct i as [|i]; [exfalso; now apply (curr_prev_ne 0)|].
    pose proof (load_before_later_kernel 0 (S i) ltac:(lia) Hi).
    pose proof (kernel_runs (S i) Hi). pose proof (kernel_before_copy (S i) Hi). lia.
  - pose proof (load_before_clear i Hi).
    destruct i as [|i]; [lia|].
    pose proof (loads_in_order 0 (S i) ltac:(lia) Hi). pose proof (load_runs (S i) Hi). lia.
  - apply load_before_later_reset; lia.
Qed.

End Orders.

Lemma admissibleb_sound g t : admissibleb g t = true -> admissible g t.
Proof.
  unfold admissibleb, admissible. intros H o Ho.
  rewrite forallb_forall in H. specialize (H o Ho).
  apply andb_prop in H. destruct H as [Hrun Hwaits].
  split; [now apply Nat.leb_le|].
  intros w Hw. rewrite forallb_forall in Hwaits. now apply Nat.leb_le, Hwaits.
Qed.

Lemma sequential_timing_admissible :
  admissible (loop_graph sample_config 2) sequential_timing.
Proof. apply admissibleb_sound. vm_compute. reflexivity. Qed.

(* ===================================================================== *)
(** ** The main loop, iteration by iteration *)
(* ===================================================================== *)

Section Iterations.

Context {real : Type} {RA : RealArith real} {RH : RealHost real}.
Variable boundary_sin : Z -> Z -> real.
Variable jacobi_schedule : Z -> schedule.
Variable init_order : list thread.
Variable c : config.

Local Abbreviation before := (state_before boundary_sin jacobi_schedule init_order c).
Local Abbreviation norm := (norm_evaluated boundary_sin jacobi_schedule init_order c).
Local Abbreviation result := (compute_result boundary_sin jacobi_schedule init_order c).
Local Abbreviation run := (iterations_run boundary_sin jacobi_schedule init_order c).

Lemma loop_body_iter st : st_iter (loop_body jacobi_schedule c st) = st_iter st + 1.
Proof. unfold loop_body. destruct (check_due c _); reflexivity. Qed.

Lemma iterate_body_shift k st :
  iterate_body jacobi_schedule k c (loop_body jacobi_schedule c st) =
  loop_body jacobi_schedule c (iterate_body jacobi_schedule k c st).
Proof. induction k as [|k IH]; [reflexivity|]. cbn. now rewrite IH. Qed.

Lemma state_before_iter k : st_iter (before k) = Z.of_nat k.
Proof.
  unfold state_before. induction k as [|k IH]; [reflexivity|].
  cbn [iterate_body]. rewrite loop_body_iter, IH. lia.
Qed.

(** The loop performs some number of iterations and stops at the first
    state in which its condition is false. *)
Lemma main_loop_iterations fuel st :
  (iter_max c - st_iter st <= Z.of_nat fuel) ->
  exists m,
    main_loop jacobi_schedule fuel c st = iterate_body jacobi_schedule m c st /\
    loop_condition c (iterate_body jacobi_schedule m c st) = false /\
    (forall k, (k < m)%nat ->
       loop_condition c (iterate_body jacobi_schedule k c st) = true).
Proof.
  revert st. induction fuel as [|fuel IH]; intros st Hfuel.
  - exists O. cbn. repeat split; [|intros; lia].
    unfold loop_condition. apply andb_false_intro2. apply Z.ltb_ge. lia.
  - cbn [main_loop]. destruct (loop_condition c st) eqn:Hcond.
    + destruct (IH (loop_body jacobi_schedule c st)) as (m & Hm & Hstop & Hrun).
      { rewrite loop_body_iter. lia. }
      exists (S m). cbn [iterate_body]. rewrite <- iterate_body_shift.
      repeat split; auto.
      intros [|k] Hk; [exact Hcond|].
      cbn [iterate_body]. rewrite <- iterate_body_shift. apply Hrun. lia.
    + exists O. cbn. repeat split; auto. intros; lia.
Qed.

Lemma main_loop_runs :
  main_loop jacobi_schedule (Z.to_nat (iter_max c)) c (setup boundary_sin init_order c) =
    before run /\
  loop_condition c (before run) = false /\
  (forall k, (k < run)%nat -> loop_condition c (before k) = true).
Proof.
  destruct (main_loop_iterations (Z.to_nat (iter_max c)) (setup boundary_sin init_order c))
    as (m & Hm & Hstop & Hrun).
  { cbn [setup st_iter]. lia. }
  assert (E : run = m).
  { unfold iterations_run. rewrite Hm. fold (before m).
    rewrite state_before_iter. lia. }
  rewrite E. auto.
Qed.


(** The mirror an iteration reads is not the one it copies into. *)
Lemma norm_evaluated_mirror k : norm k = rsqrt (st_h (before k) (prev (Z.of_nat k))).
Proof.
  unfold norm_evaluated, evaluate_and_reset, extract, compute.
  cbn [fst st_iter st_h st_l2_norms st_d]. rewrite !store_eq.
  rewrite state_before_iter. rewrite store_ne; [reflexivity|].
  intros E. now apply (curr_prev_ne k).
Qed.

(** The first iteration evaluates the sentinel of the set-up. *)
Lemma norm_evaluated_first : norm O = rsqrt r1.
Proof. rewrite norm_evaluated_mirror. reflexivity. Qed.

Hypothesis Hnccheck : nccheck c = 1.

Lemma loop_body_checks st :
  loop_body jacobi_schedule c st =
  swap_and_count (snd (evaluate_and_reset c (extract (compute jacobi_schedule c st)))).
Proof. unfold loop_body. now rewrite check_due_nccheck_1. Qed.

Lemma state_before_succ k :
  before (S k) =
  swap_and_count
    (snd (evaluate_and_reset c (extract (compute jacobi_schedule c (before k))))).
Proof. unfold state_before. cbn [iterate_body]. apply loop_body_checks. Qed.

(** The flag that decides whether iteration [k + 1] runs. *)
Lemma flag_after k :
  st_l2_norm_greater_than_tol (before (S k)) = rgtb (norm k) tol.
Proof. rewrite state_before_succ. reflexivity. Qed.

(** The slot an iteration accumulates into has been zeroed. *)
Lemma slot_zeroed k : st_d (before k) (curr (Z.of_nat k)) = r0.
Proof.
  destruct k as [|k]; [reflexivity|].
  rewrite state_before_succ.
  unfold swap_and_count, evaluate_and_reset, extract, compute.
  cbn [snd st_d st_iter]. rewrite state_before_iter, curr_succ. apply store_eq.
Qed.

(** The compute of an iteration starts from zero: its result is what the
    launch adds. *)
Lemma compute_result_from_zero k :
  result k =
  snd (launch_jacobi (nx c) (ny c) (jacobi_schedule (Z.of_nat k))
         (st_a_new (before k)) (st_a (before k)) r0).
Proof.
  unfold compute_result, compute. cbn [st_d].
  rewrite state_before_iter, store_eq, slot_zeroed.
  reflexivity.
Qed.

(** When iteration [k + 1] starts, the mirror it is about to read holds
    what the compute of iteration [k] produced. *)
Lemma mirror_holds_compute_result k :
  st_h (before (S k)) (prev (Z.of_nat (S k))) = result k.
Proof.
  rewrite state_before_succ.
  unfold compute_result, swap_and_count, evaluate_and_reset, extract.
  cbn [snd st_h st_iter st_d].
  assert (Hi : st_iter (compute jacobi_schedule c (before k)) = Z.of_nat k)
    by (unfold compute; cbn [st_iter]; apply state_before_iter).
  rewrite Hi, prev_succ.
  rewrite store_ne by apply curr_prev_ne. apply store_eq.
Qed.

(** Every later iteration evaluates what the compute of the iteration
    before it produced. *)
Lemma norm_evaluated_lagged k : norm (S k) = rsqrt (result k).
Proof. rewrite norm_evaluated_mirror. f_equal. apply mirror_holds_compute_result. Qed.

(** When the loop stops and why. *)
Lemma main_loop_stops :
  Z.of_nat run <= Z.max 0 (iter_max c) /\
  (forall k, (k < run)%nat ->
     Z.of_nat k < iter_max c /\
     (forall j, k = S j -> rgtb (norm j) tol = true)) /\
  (Z.of_nat run < iter_max c ->
     exists j, run = S j /\ rgtb (norm j) tol = false).
Proof.
  destruct main_loop_runs as (_ & Hstop & Hrun).
  assert (Hran : forall k, (k < run)%nat ->
            Z.of_nat k < iter_max c /\
            (forall j, k = S j -> rgtb (norm j) tol = true)).
  { intros k Hk. specialize (Hrun k Hk). unfold loop_condition in Hrun.
    apply andb_prop in Hrun. destruct Hrun as [Hflag Hlt].
    rewrite state_before_iter in Hlt. apply Z.ltb_lt in Hlt. split; [exact Hlt|].
    intros j ->. now rewrite flag_after in Hflag. }
  split; [|split; [exact Hran|]].
  - destruct run as [|m]; [lia|].
    destruct (Hran m ltac:(lia)) as [Hlt _]. lia.
  - intros Hlt. unfold loop_condition in Hstop.
    rewrite state_before_iter in Hstop.
    apply andb_false_elim in Hstop. destruct Hstop as [Hflag|Hge].
    + destruct run as [|j]; [discriminate Hflag|].
      exists j. split; [reflexivity|]. now rewrite flag_after in Hflag.
    + apply Z.ltb_ge in Hge. lia.
Qed.


End Iterations.

(* ===================================================================== *)
(** ** The boundary columns *)
(* ===================================================================== *)

Section Boundary.

Context {real : Type} {RA : RealArith real}.
Variable boundary_sin : Z -> Z -> real.

Lemma initialize_boundaries_loop_stores fuel iy stride nx ny j v :
  In (j, v) (fst (initialize_boundaries_loop boundary_sin fuel iy stride nx ny)) \/
  In (j, v) (snd (initialize_boundaries_loop boundary_sin fuel iy stride nx ny)) ->
  exists iy', v = boundary_sin ny iy' /\ (j = iy' * nx + 0 \/ j = iy' * nx + (nx - 1)).
Proof.
  revert iy. induction fuel as [|fuel IH]; intros iy; cbn [initialize_boundaries_loop].
  - cbn. tauto.
  - destruct (iy <? ny); [|cbn; tauto].
    cbn [fst snd In]. intros [[E|[E|Hin]]|[E|[E|Hin]]].
    all: try (injection E as <- <-; exists iy; auto).
    all: apply (IH (iy + stride)); auto.
Qed.

Lemma initialize_boundaries_loop_first fuel iy stride nx ny :
  iy < ny -> (0 < fuel)%nat ->
  let r := initialize_boundaries_loop boundary_sin fuel iy stride nx ny in
  In (iy * nx + 0, boundary_sin ny iy) (fst r) /\
  In (iy * nx + (nx - 1), boundary_sin ny iy) (fst r) /\
  In (iy * nx + 0, boundary_sin ny iy) (snd r) /\
  In (iy * nx + (nx - 1), boundary_sin ny iy) (snd r).
Proof.
  intros Hlt Hfuel. destruct fuel as [|fuel]; [lia|].
  cbn [initialize_boundaries_loop]. apply Z.ltb_lt in Hlt. rewrite Hlt.
  cbv zeta. cbn [fst snd In]. repeat split; auto.
Qed.

Lemma row_thread_launched ny iy :
  0 <= iy < ny ->
  exists t, In t (grid_threads (init_grid ny) init_block) /\
            dim_x (blockIdx t) * dim_x init_block + dim_x (threadIdx t) = iy.
Proof.
  intros Hy.
  exists {| blockIdx := {| dim_x := iy / 128; dim_y := 0 |};
            threadIdx := {| dim_x := iy mod 128; dim_y := 0 |} |}.
  split.
  - apply in_grid_threads. split.
    + apply in_grid_blocks. cbn [blockIdx dim_x dim_y init_grid].
      rewrite Z.quot_div_nonneg by lia.
      pose proof (Z.div_pos iy 128). pose proof (Z.div_le_mono iy ny 128). lia.
    + apply in_block_threads. cbn [threadIdx dim_x dim_y init_block].
      pose proof (Z.mod_pos_bound iy 128). lia.
  - cbn [blockIdx threadIdx dim_x init_block]. pose proof (Z.div_mod iy 128). lia.
Qed.

(** After the initialisation kernel, whatever the order of its threads. *)
Lemma initialize_boundaries_holds nx ny order (a a_new : buffer real) :
  1 <= nx ->
  Permutation (grid_threads (init_grid ny) init_block) order ->
  boundary_holds boundary_sin nx ny
    (fst (launch_initialize_boundaries boundary_sin nx ny order a a_new)) /\
  boundary_holds boundary_sin nx ny
    (snd (launch_initialize_boundaries boundary_sin nx ny order a a_new)).
Proof.
  intros Hnx Hperm.
  assert (Hagree : forall (sel : list (Z * real) * list (Z * real) -> list (Z * real)),
            (sel = fst \/ sel = snd) ->
            forall m iy ix, 0 <= iy < ny -> (ix = 0 \/ ix = nx - 1) ->
            apply_stores
              (flat_map (fun t => sel (initialize_boundaries_thread boundary_sin
                                         (init_grid ny) init_block t nx ny)) order)
              m (iy * nx + ix) = boundary_sin ny iy).
  { intros sel Hsel m iy ix Hy Hx. apply apply_stores_agree.
    - destruct (row_thread_launched ny iy Hy) as (t & Ht & Hrow).
      apply (Permutation_in _ Hperm) in Ht.
      exists (iy * nx + ix, boundary_sin ny iy). split; [|reflexivity].
      apply in_flat_map. exists t. split; [exact Ht|].
      unfold initialize_boundaries_thread. rewrite Hrow.
      destruct (initialize_boundaries_loop_first (Z.to_nat ny) iy
                  (dim_x init_block * dim_x (init_grid ny)) nx ny)
        as (H1 & H2 & H3 & H4); [lia | lia |].
      destruct Hsel as [-> | ->], Hx as [-> | ->]; assumption.
    - intros [j v] Hin Hj. cbn [fst snd] in *. subst j.
      apply in_flat_map in Hin. destruct Hin as (t & _ & Hin).
      unfold initialize_boundaries_thread in Hin.
      destruct (initialize_boundaries_loop_stores (Z.to_nat ny)
                  (dim_x (blockIdx t) * dim_x init_block + dim_x (threadIdx t))
                  (dim_x init_block * dim_x (init_grid ny)) nx ny (iy * nx + ix) v)
        as (iy' & -> & Hoff).
      { destruct Hsel as [-> | ->]; auto. }
      f_equal. destruct Hoff as [E|E], Hx as [-> | ->];
        apply offset_inj in E; try lia; destruct E; congruence. }
  unfold launch_initialize_boundaries, initialize_boundaries. cbn [fst snd].
  split; intros iy Hy; split; apply Hagree; auto.
Qed.

(** The stencil kernel leaves the boundary columns alone. *)
Lemma launch_jacobi_keeps_boundary nx ny s (a_new a : buffer real) l2 :
  1 <= nx -> valid_schedule (dim_grid nx ny) dim_block s ->
  boundary_holds boundary_sin nx ny a_new ->
  boundary_holds boundary_sin nx ny (fst (launch_jacobi nx ny s a_new a l2)).
Proof.
  intros Hnx Hs Hb iy Hy.
  rewrite !launch_jacobi_untouched; auto.
  all: intros iy' ix' Hx' Hy' E; apply offset_inj in E; lia.
Qed.

End Boundary.

Section BoundaryLoop.

Context {real : Type} {RA : RealArith real} {RH : RealHost real}.
Variable boundary_sin : Z -> Z -> real.
Variable jacobi_schedule : Z -> schedule.
Variable init_order : list thread.
Variable c : config.

Hypothesis Hnx : 1 <= nx c.
Hypothesis Hinit : Permutation (grid_threads (init_grid (ny c)) init_block) init_order.
Hypothesis Hsched :
  forall i, valid_schedule (dim_grid (nx c) (ny c)) dim_block (jacobi_schedule i).

Lemma loop_body_keeps_boundary st :
  boundary_holds boundary_sin (nx c) (ny c) (st_a st) ->
  boundary_holds boundary_sin (nx c) (ny c) (st_a_new st) ->
  boundary_holds boundary_sin (nx c) (ny c) (st_a (loop_body jacobi_schedule c st)) /\
  boundary_holds boundary_sin (nx c) (ny c) (st_a_new (loop_body jacobi_schedule c st)).
Proof.
  intros Ha Hnew. unfold loop_body.
  destruct (check_due c _); cbn [swap_and_count evaluate_and_reset extract compute
                                   snd st_a st_a_new]; split; auto;
    apply launch_jacobi_keeps_boundary; auto.
Qed.

Lemma state_before_boundary k :
  boundary_holds boundary_sin (nx c) (ny c)
    (st_a (state_before boundary_sin jacobi_schedule init_order c k)) /\
  boundary_holds boundary_sin (nx c) (ny c)
    (st_a_new (state_before boundary_sin jacobi_schedule init_order c k)).
Proof.
  unfold state_before. induction k as [|k [IHa IHnew]].
  - cbn [iterate_body setup st_a st_a_new].
    apply initialize_boundaries_holds; auto.
  - cbn [iterate_body]. apply loop_body_keeps_boundary; auto.
Qed.

End BoundaryLoop.

(* ===================================================================== *)
(** ** binary32 facts used by the host loop *)
(* ===================================================================== *)

Lemma binary32_sqrt_one : Binary32.sqrt Binary32.one = Binary32.one.
Proof. reflexivity. Qed.

Lemma binary32_one_gt_tol : Binary32.gtb Binary32.one Binary32.tol = true.
Proof. reflexivity. Qed.

Lemma SFcompare_swap x y :
  SFcompare y x = option_map CompOpp (SFcompare x y).
Proof.
  destruct x as [sx|sx| |sx mx ex], y as [sy|sy| |sy my ey]; cbn;
    try reflexivity;
    try (destruct sx; reflexivity); try (destruct sy; reflexivity);
    try (destruct sx, sy; reflexivity).
  destruct sx, sy; cbn; try reflexivity.
  - rewrite (Z.compare_antisym ex ey).
    destruct (ex ?= ey) eqn:E; cbn; try reflexivity.
    f_equal. f_equal. symmetry. apply (Pos.compare_cont_antisym mx my Eq).
  - rewrite (Z.compare_antisym ex ey).
    destruct (ex ?= ey) eqn:E; cbn; try reflexivity.
    f_equal. symmetry. apply (Pos.compare_cont_antisym mx my Eq).
Qed.

(** For numbers, "not greater than" is "less than or equal to". *)
Lemma binary32_not_gt_le x y :
  Binary32.is_nan x = false -> Binary32.is_nan y = false ->
  (Binary32.gtb x y = false <-> Binary32.leb x y = true).
Proof.
  unfold Binary32.gtb, Binary32.leb, SFltb, SFleb. intros Hx Hy.
  rewrite (SFcompare_swap x y).
  destruct (SFcompare x y) as [[| |]|] eqn:E; cbn; try (split; congruence).
  exfalso. destruct x as [sx|sx| |sx mx ex], y as [sy|sy| |sy my ey];
    cbn in *; discriminate.
Qed.

(* ===================================================================== *)
(** ** The claims of the specification *)
(* ===================================================================== *)

(** C1, as the code has it.  In every execution that the streams and
    markers admit, for every iteration [k] of the loop:
    (b) the compute of iteration [k] finishes before the copy of its slot
    starts;
    (a) the reset issued by iteration [k] finishes before the compute of
    iteration [k + 1], the next to write that slot, starts;
    (c) the copy of iteration [k] finishes before the host reads the mirror
    in iteration [k + 1] and before the reset of iteration [k + 1]
    overwrites the slot;
    and the host has read the mirror of iteration [k] before the compute of
    iteration [k + 1] starts writing the slot again.
    Between the reset that precedes it (the set-up, for iteration 0) and
    the end of its copy, the compute of iteration [k] is the only writer of
    its slot, and nothing else writes the mirror between that copy and the
    read of iteration [k + 1].  So the value evaluated by iteration
    [k + 1] is exactly what the compute launched by iteration [k]
    produced, never the write of a later compute.  Iteration 0 is the
    exception: what it reads was written by the set-up, and every write to
    that slot or mirror comes after its read. *)
Theorem marker_protocol_orders_slot_accesses
    {real : Type} {RA : RealArith real} {RH : RealHost real}
    (boundary_sin : Z -> Z -> real) (jacobi_schedule : Z -> schedule)
    (init_order : list thread) (c : config) (n : nat) (t : timing) :
  nccheck c = 1 ->
  admissible (loop_graph c n) t ->
  let g := loop_graph c n in
  let start := t_start t in
  let finish := t_finish t in
  g = flat_map iteration_ops (seq 0 n) /\
  (forall o, In o g ->
     In (loc_h (prev 0)) (writes (op_call o)) \/ In (loc_d (prev 0)) (writes (op_call o)) ->
     (finish (load_of 0) <= start (op_node o))%nat) /\
  (forall k, (k < n)%nat ->
     (finish (kernel_of k) <= start (copy_of k))%nat /\
     (forall o, In o g -> In (loc_d (curr (Z.of_nat k))) (writes (op_call o)) ->
        op_node o = kernel_of k \/
        match k with
        | O => False
        | S j => op_node o = reset_of j \/ (finish (op_node o) <= start (reset_of j))%nat
        end \/
        (finish (copy_of k) <= start (op_node o))%nat) /\
     ((S k < n)%nat ->
        (finish (reset_of k) <= start (kernel_of (S k)))%nat /\
        (finish (copy_of k) <= start (load_of (S k)))%nat /\
        (finish (copy_of k) <= start (reset_of (S k)))%nat /\
        (finish (load_of k) <= start (kernel_of (S k)))%nat /\
        (forall o, In o g -> In (loc_h (curr (Z.of_nat k))) (writes (op_call o)) ->
           op_node o = copy_of k \/
           (finish (op_node o) <= start (copy_of k))%nat \/
           (finish (load_of (S k)) <= start (op_node o))%nat) /\
        evaluates_finished_compute g t (S k) /\
        st_h (state_before boundary_sin jacobi_schedule init_order c (S k))
             (prev (Z.of_nat (S k))) =
        compute_result boundary_sin jacobi_schedule init_order c k)).
Proof.
  intros Hn Hadm g start finish. subst g start finish.
  split; [apply (loop_graph_closed c n Hn)|].
  split.
  { intros o Ho Hl. destruct n as [|n'].
    - apply (in_loop_graph c 0 o Hn) in Ho. destruct Ho as (k & Hk & _). lia.
    - apply (first_load_reads_setup c (S n') t Hn Hadm o); auto. lia. }
  intros k Hk. split; [now apply (kernel_before_copy c n t Hn Hadm)|].
  split; [intros o Ho Hl; now apply (slot_accumulates_one_compute c n t Hn Hadm)|].
  intros Hk'.
  pose proof (copy_before_later_load c n t Hn Hadm k (S k) ltac:(lia) Hk') as Hcl.
  split; [now apply (reset_before_next_kernel c n t Hn Hadm)|].
  split; [exact Hcl|].
  split.
  { pose proof (load_runs c n t Hn Hadm (S k) Hk').
    pose proof (load_before_later_reset c n t Hn Hadm (S k) (S k) ltac:(lia) Hk'). lia. }
  split; [apply (load_before_later_kernel c n t Hn Hadm); lia|].
  split; [intros o Ho Hl; now apply (mirror_stable c n t Hn Hadm)|].
  split.
  - exists {| op_node := kernel_of k;
              op_call := hipLaunchKernelGGL (k_jacobi_kernel (curr (Z.of_nat k)))
                           (Some compute_stream);
              op_waits := match k with
                          | O => [Setup]
                          | S k' => [kernel_of k'; reset_of k'; clear_of k']
                          end |}.
    cbn [op_node op_call]. split; [|split].
    + apply in_loop_graph; [exact Hn|]. exists k. split; [lia|]. now left.
    + now rewrite prev_succ.
    + pose proof (kernel_before_copy c n t Hn Hadm k ltac:(lia)).
      pose proof (copy_runs c n t Hn Hadm k ltac:(lia)). lia.
  - now apply mirror_holds_compute_result.
Qed.

Lemma marker_protocol_orders_slot_accesses_witness :
  nccheck sample_config = 1 /\
  admissible (loop_graph sample_config 2) sequential_timing /\
  (t_finish sequential_timing (kernel_of 0) <=
   t_start sequential_timing (copy_of 0))%nat.
Proof.
  split; [reflexivity|].
  split; [exact sequential_timing_admissible|].
  apply (marker_protocol_orders_slot_accesses sample_boundary_sin sample_schedule
           sample_init_order sample_config 2 sequential_timing eq_refl
           sequential_timing_admissible).
  lia.
Defined.

(** C1 fails as stated at iteration 0: in the run of two iterations in
    which every operation runs alone in program order, which the streams
    and markers admit, no compute into slot 0 has finished when iteration 0
    reads the mirror of slot 0. *)
Lemma first_evaluation_precedes_every_compute :
  admissible (loop_graph sample_config 2) sequential_timing /\
  ~ evaluates_finished_compute (loop_graph sample_config 2) sequential_timing 0.
Proof.
  split; [exact sequential_timing_admissible|].
  intros (o & Ho & Hcall & Hbefore). apply Nat.leb_le in Hbefore.
  apply (in_loop_graph sample_config 2 o eq_refl) in Ho.
  destruct Ho as (k & Hk & Ho).
  destruct k as [|[|k]]; [| |lia]; unfold iteration_ops in Ho;
    repeat (destruct Ho as [<-|Ho];
            [try discriminate Hcall; vm_compute in Hbefore; discriminate Hbefore|]);
    destruct Ho.
Qed.

(** C2.  One launch of the stencil kernel, as [main] launches it and
    whatever the order in which the device runs the threads, leaves in
    every interior cell [(iy, ix)] ([1 <= ix <= nx-2],
    [iy_start <= iy < iy_end]) of the next array the value
    [0.25 * (cur[iy,ix+1] + cur[iy,ix-1] + cur[iy+1,ix] + cur[iy-1,ix])],
    computed from the current array alone (the initial contents of the next
    array play no part).  Outside the interior, every offset that is not in
    an interior column of the two seam rows [iy_start - 1] and [iy_end]
    keeps the value it had: the update rule touches interior cells only. *)
Theorem jacobi_kernel_updates_interior
    {real : Type} {RA : RealArith real}
    (nx ny : Z) (s : schedule) (a_new a : buffer real) (l2 : real) :
  valid_schedule (dim_grid nx ny) dim_block s ->
  (forall iy ix, interior nx ny iy ix ->
     fst (launch_jacobi nx ny s a_new a l2) (iy * nx + ix) =
     rmul rquarter (radd (radd (radd (a (iy * nx + ix + 1)) (a (iy * nx + ix - 1)))
                               (a ((iy + 1) * nx + ix)))
                         (a ((iy - 1) * nx + ix)))) /\
  (forall j,
     (forall iy ix, 1 <= ix <= nx - 2 -> iy_start - 1 <= iy <= iy_end ny ->
                    j <> iy * nx + ix) ->
     fst (launch_jacobi nx ny s a_new a l2) j = a_new j).
Proof.
  intros Hs. split.
  - intros iy ix [Hx Hy]. unfold iy_start, iy_end in Hy.
    now destruct (launch_jacobi_cell nx ny s a_new a l2 iy ix Hs Hx Hy) as [-> _].
  - intros j Hout. apply launch_jacobi_untouched; [exact Hs|].
    intros iy ix Hx Hy. apply Hout; [exact Hx|]. unfold iy_start, iy_end. lia.
Qed.

Lemma jacobi_kernel_updates_interior_witness :
  valid_schedule (dim_grid 4 4) dim_block (canonical_schedule (dim_grid 4 4) dim_block) /\
  ((forall iy ix, interior 4 4 iy ix ->
      fst (launch_jacobi 4 4 (canonical_schedule (dim_grid 4 4) dim_block)
             zero_grid zero_grid Binary32.zero) (iy * 4 + ix) =
      rmul rquarter
        (radd (radd (radd (zero_grid (iy * 4 + ix + 1)) (zero_grid (iy * 4 + ix - 1)))
                    (zero_grid ((iy + 1) * 4 + ix)))
              (zero_grid ((iy - 1) * 4 + ix)))) /\
   (forall j,
      (forall iy ix, 1 <= ix <= 4 - 2 -> iy_start - 1 <= iy <= iy_end 4 ->
                     j <> iy * 4 + ix) ->
      fst (launch_jacobi 4 4 (canonical_schedule (dim_grid 4 4) dim_block)
             zero_grid zero_grid Binary32.zero) j = zero_grid j)).
Proof.
  split.
  - split; apply Permutation_refl.
  - apply (jacobi_kernel_updates_interior 4 4). split; apply Permutation_refl.
Defined.

(** C3.  In the same launch, for every interior column [ix]: the value
    computed for row [iy_start] is also stored in row [iy_end], and the
    value computed for row [iy_end - 1] is also stored in row
    [iy_start - 1]; after the launch the two seam rows of the next array
    equal their periodic interior counterparts. *)
Theorem jacobi_kernel_duplicates_seam_rows
    {real : Type} {RA : RealArith real}
    (nx ny : Z) (s : schedule) (a_new a : buffer real) (l2 : real) (ix : Z) :
  valid_schedule (dim_grid nx ny) dim_block s ->
  iy_start < iy_end ny ->
  1 <= ix <= nx - 2 ->
  let next := fst (launch_jacobi nx ny s a_new a l2) in
  next (iy_end ny * nx + ix) = stencil a nx iy_start ix /\
  next ((iy_start - 1) * nx + ix) = stencil a nx (iy_end ny - 1) ix /\
  next (iy_end ny * nx + ix) = next (iy_start * nx + ix) /\
  next ((iy_start - 1) * nx + ix) = next ((iy_end ny - 1) * nx + ix).
Proof.
  intros Hs Hrows Hx next. unfold iy_start, iy_end in *.
  destruct (launch_jacobi_cell nx ny s a_new a l2 1 ix Hs Hx ltac:(lia))
    as (Hfirst & Hup & _).
  destruct (launch_jacobi_cell nx ny s a_new a l2 (ny - 1 - 1) ix Hs Hx ltac:(lia))
    as (Hlast & _ & Hdown).
  specialize (Hup eq_refl). specialize (Hdown ltac:(lia)).
  subst next. replace (1 - 1) with 0 by lia.
  rewrite Hup, Hdown, Hfirst, Hlast. auto.
Qed.

Lemma jacobi_kernel_duplicates_seam_rows_witness :
  valid_schedule (dim_grid 4 4) dim_block (canonical_schedule (dim_grid 4 4) dim_block) /\
  iy_start < iy_end 4 /\
  1 <= 1 <= 4 - 2 /\
  (let next := fst (launch_jacobi 4 4 (canonical_schedule (dim_grid 4 4) dim_block)
                      zero_grid zero_grid Binary32.zero) in
   next (iy_end 4 * 4 + 1) = stencil zero_grid 4 iy_start 1 /\
   next ((iy_start - 1) * 4 + 1) = stencil zero_grid 4 (iy_end 4 - 1) 1 /\
   next (iy_end 4 * 4 + 1) = next (iy_start * 4 + 1) /\
   next ((iy_start - 1) * 4 + 1) = next ((iy_end 4 - 1) * 4 + 1)).
Proof.
  split; [split; apply Permutation_refl|].
  split; [reflexivity|].
  split; [lia|].
  apply (jacobi_kernel_duplicates_seam_rows 4 4).
  - split; apply Permutation_refl.
  - reflexivity.
  - lia.
Defined.

(** C4.  One launch adds to the accumulator it is given the squared
    residuals [(next - cur)^2] of the interior cells, through a reduction
    in two levels: a tree reduction within each block, then one atomic add
    per block, in whatever order the blocks get to it.  Over exact
    arithmetic (associative, commutative addition with neutral [0.0]) the
    result is the accumulator plus the plain sum of the squared residuals
    over the interior cells; a thread outside the interior contributes
    [0.0]. *)
Theorem jacobi_kernel_residual_reduction
    {real : Type} {RA : RealArith real}
    (nx ny : Z) (s : schedule) (a_new a : buffer real) (l2 : real) :
  (forall x y z : real, radd x (radd y z) = radd (radd x y) z) ->
  (forall x y : real, radd x y = radd y x) ->
  (forall x : real, radd r0 x = x) ->
  valid_schedule (dim_grid nx ny) dim_block s ->
  snd (launch_jacobi nx ny s a_new a l2) =
    fold_left (fun acc b => radd acc (BlockReduce_Sum
                 (map (fun ti => snd (jacobi_thread dim_block
                                        {| blockIdx := b; threadIdx := ti |}
                                        a iy_start (iy_end ny) nx))
                      (block_threads dim_block))))
              (block_order s) l2 /\
  snd (launch_jacobi nx ny s a_new a l2) =
    radd l2 (rsum (map (fun cell => residual2 a nx (fst cell) (snd cell))
                       (interior_cells nx ny))) /\
  (forall t, thread_active dim_block (iy_end ny) nx t = false ->
             snd (jacobi_thread dim_block t a iy_start (iy_end ny) nx) = r0).
Proof.
  intros Hassoc Hcomm Hzero Hs. split; [reflexivity|]. split.
  - now apply launch_jacobi_l2.
  - intros t Hinactive. rewrite jacobi_thread_local. now rewrite Hinactive.
Qed.

Lemma jacobi_kernel_residual_reduction_witness :
  (forall x y z : Qc, radd x (radd y z) = radd (radd x y) z) /\
  (forall x y : Qc, radd x y = radd y x) /\
  (forall x : Qc, radd r0 x = x) /\
  valid_schedule (dim_grid 4 4) dim_block (canonical_schedule (dim_grid 4 4) dim_block) /\
  snd (launch_jacobi 4 4 (canonical_schedule (dim_grid 4 4) dim_block)
         sample_exact_grid sample_exact_grid r0) =
    radd r0 (rsum (map (fun cell => residual2 sample_exact_grid 4 (fst cell) (snd cell))
                       (interior_cells 4 4))).
Proof.
  split; [exact exact_radd_assoc|].
  split; [exact exact_radd_comm|].
  split; [exact exact_radd_0_l|].
  split; [split; apply Permutation_refl|].
  apply (jacobi_kernel_residual_reduction 4 4
           (canonical_schedule (dim_grid 4 4) dim_block)
           sample_exact_grid sample_exact_grid r0
           exact_radd_assoc exact_radd_comm exact_radd_0_l).
  split; apply Permutation_refl.
Defined.

(** C5.  At the start of every iteration (and so after the set-up, between
    any two iterations and when the loop has stopped), both grid arrays
    hold [sin(2 pi iy / (ny - 1))] in the first and in the last column of
    every row [iy]: the initialisation kernel stores it there, and neither
    the stencil update, nor the seam duplication, nor the swap changes
    it. *)
Theorem boundary_columns_fixed
    {real : Type} {RA : RealArith real} {RH : RealHost real}
    (boundary_sin : Z -> Z -> real) (jacobi_schedule : Z -> schedule)
    (init_order : list thread) (c : config) (k : nat) (iy : Z) :
  1 <= nx c ->
  Permutation (grid_threads (init_grid (ny c)) init_block) init_order ->
  (forall i, valid_schedule (dim_grid (nx c) (ny c)) dim_block (jacobi_schedule i)) ->
  0 <= iy < ny c ->
  let st := state_before boundary_sin jacobi_schedule init_order c k in
  st_a st (iy * nx c + 0) = boundary_sin (ny c) iy /\
  st_a st (iy * nx c + (nx c - 1)) = boundary_sin (ny c) iy /\
  st_a_new st (iy * nx c + 0) = boundary_sin (ny c) iy /\
  st_a_new st (iy * nx c + (nx c - 1)) = boundary_sin (ny c) iy.
Proof.
  intros Hnx Hinit Hsched Hy st.
  destruct (state_before_boundary boundary_sin jacobi_schedule init_order c
              Hnx Hinit Hsched k) as [Ha Hnew].
  destruct (Ha iy Hy) as [H1 H2]. destruct (Hnew iy Hy) as [H3 H4].
  subst st. auto.
Qed.

Lemma boundary_columns_fixed_witness :
  1 <= nx sample_config /\
  Permutation (grid_threads (init_grid (ny sample_config)) init_block) sample_init_order /\
  (forall i, valid_schedule (dim_grid (nx sample_config) (ny sample_config)) dim_block
               (sample_schedule i)) /\
  0 <= 1 < ny sample_config /\
  (let st := state_before sample_boundary_sin sample_schedule sample_init_order
               sample_config 1 in
   st_a st (1 * nx sample_config + 0) = sample_boundary_sin (ny sample_config) 1 /\
   st_a st (1 * nx sample_config + (nx sample_config - 1)) =
     sample_boundary_sin (ny sample_config) 1 /\
   st_a_new st (1 * nx sample_config + 0) = sample_boundary_sin (ny sample_config) 1 /\
   st_a_new st (1 * nx sample_config + (nx sample_config - 1)) =
     sample_boundary_sin (ny sample_config) 1).
Proof.
  split; [cbn; lia|].
  split; [apply Permutation_refl|].
  split; [intros i; split; apply Permutation_refl|].
  split; [cbn; lia|].
  apply (boundary_columns_fixed sample_boundary_sin sample_schedule sample_init_order
           sample_config 1 1).
  - cbn; lia.
  - apply Permutation_refl.
  - intros i; split; apply Permutation_refl.
  - cbn; lia.
Defined.

(** C6, as the code has it.  The main loop performs iteration [k] exactly
    when [k < iter_max] and, for [k >= 1], the norm evaluated by iteration
    [k - 1] was greater than [tol]: it stops as soon as an evaluated norm
    is not greater than [tol] (for a norm that is a number: is less than or
    equal to [tol]) or the iteration count reaches [iter_max].  The norm
    evaluated by iteration [k + 1] is the square root of what the compute
    of iteration [k] accumulated, from zero, into its slot: the norm of the
    iteration before, lagged by one.  The norm evaluated by iteration 0 is
    the square root of the sentinel 1.0 of the set-up, not the norm of an
    iteration. *)
Theorem main_loop_stops_on_lagged_norm
    (boundary_sin : Z -> Z -> Binary32.float) (jacobi_schedule : Z -> schedule)
    (init_order : list thread) (c : config) :
  nccheck c = 1 ->
  let m := iterations_run boundary_sin jacobi_schedule init_order c in
  let norm := norm_evaluated boundary_sin jacobi_schedule init_order c in
  let result := compute_result boundary_sin jacobi_schedule init_order c in
  let before := state_before boundary_sin jacobi_schedule init_order c in
  main_loop jacobi_schedule (Z.to_nat (iter_max c)) c (setup boundary_sin init_order c) =
    before m /\
  Z.of_nat m <= Z.max 0 (iter_max c) /\
  (forall k, (k < m)%nat ->
     Z.of_nat k < iter_max c /\
     (forall j, k = S j -> Binary32.gtb (norm j) Binary32.tol = true)) /\
  (Z.of_nat m < iter_max c ->
     exists j, m = S j /\
               Binary32.gtb (norm j) Binary32.tol = false /\
               (Binary32.is_nan (norm j) = false ->
                Binary32.leb (norm j) Binary32.tol = true)) /\
  norm O = Binary32.sqrt Binary32.one /\
  (forall k,
     norm (S k) = Binary32.sqrt (result k) /\
     result k = snd (launch_jacobi (nx c) (ny c) (jacobi_schedule (Z.of_nat k))
                       (st_a_new (before k)) (st_a (before k)) Binary32.zero)).
Proof.
  intros Hn m norm result before. subst m norm result before.
  destruct (main_loop_runs boundary_sin jacobi_schedule init_order c) as (Hrun & _ & _).
  destruct (main_loop_stops boundary_sin jacobi_schedule init_order c Hn)
    as (Hle & Hran & Hstop).
  split; [exact Hrun|]. split; [exact Hle|]. split; [exact Hran|]. split.
  - intros Hlt. destruct (Hstop Hlt) as (j & Hj & Hflag).
    exists j. split; [exact Hj|]. split; [exact Hflag|].
    intros Hnum.
    apply (proj1 (binary32_not_gt_le _ Binary32.tol Hnum (eq_refl false))). exact Hflag.
  - split; [exact (norm_evaluated_first boundary_sin jacobi_schedule init_order c)|].
    intros k. split.
    + exact (norm_evaluated_lagged boundary_sin jacobi_schedule init_order c Hn k).
    + exact (compute_result_from_zero boundary_sin jacobi_schedule init_order c Hn k).
Qed.

Lemma main_loop_stops_on_lagged_norm_witness :
  nccheck sample_config = 1 /\
  norm_evaluated sample_boundary_sin sample_schedule sample_init_order sample_config 1 =
  Binary32.sqrt
    (compute_result sample_boundary_sin sample_schedule sample_init_order sample_config 0).
Proof.
  split; [reflexivity|].
  apply (main_loop_stops_on_lagged_norm sample_boundary_sin sample_schedule
           sample_init_order sample_config eq_refl).
Defined.

(** C6 fails as stated at iteration 0: in the sample run the norm
    evaluated by iteration 0 is 1.0, while the grid has no interior cell
    and every compute of the run produces a residual of zero; iteration 1
    does evaluate the norm of iteration 0. *)
Lemma first_norm_is_no_iteration_norm :
  iterations_run sample_boundary_sin sample_schedule sample_init_order sample_config
    = 2%nat /\
  norm_evaluated sample_boundary_sin sample_schedule sample_init_order sample_config 0
    = Binary32.one /\
  Binary32.sqrt
    (compute_result sample_boundary_sin sample_schedule sample_init_order sample_config 0)
    = Binary32.zero /\
  Binary32.sqrt
    (compute_result sample_boundary_sin sample_schedule sample_init_order sample_config 1)
    = Binary32.zero /\
  norm_evaluated sample_boundary_sin sample_schedule sample_init_order sample_config 1
    = Binary32.zero.
Proof. repeat split; vm_compute; reflexivity. Qed.

(** C7.  The convergence monitor (lines 240-255), given the scalar in the
    host mirror of slot [prev], evaluates its square root, sets the
    continue flag to [sqrt(value) > tol], and then zeroes the scalar in the
    host mirror and in the device accumulator of that slot.  The other
    slot, the grids and the iteration counter are untouched; the output
    either is unchanged or gains the progress line; the scratch variable
    [l2_norms[prev]] is left at zero. *)
Theorem convergence_monitor_contract
    {real : Type} {RA : RealArith real} {RH : RealHost real}
    (c : config) (st : host_state real) :
  let p := prev (st_iter st) in
  let norm := fst (evaluate_and_reset c st) in
  let st' := snd (evaluate_and_reset c st) in
  norm = rsqrt (st_h st p) /\
  st_l2_norm_greater_than_tol st' = rgtb (rsqrt (st_h st p)) tol /\
  st_h st' p = r0 /\
  st_d st' p = r0 /\
  (forall q, q <> p -> st_h st' q = st_h st q /\ st_d st' q = st_d st q /\
                       st_l2_norms st' q = st_l2_norms st q) /\
  st_l2_norms st' p = r0 /\
  st_a st' = st_a st /\ st_a_new st' = st_a_new st /\ st_iter st' = st_iter st /\
  (st_out st' = st_out st \/ st_out st' = st_out st ++ [msg_progress (st_iter st) norm]).
Proof.
  intros p norm st'. subst p norm st'. unfold evaluate_and_reset.
  cbn [fst snd st_l2_norm_greater_than_tol st_h st_d st_l2_norms st_a st_a_new st_iter st_out].
  rewrite !store_eq. repeat split; auto.
  - now apply store_ne.
  - now apply store_ne.
  - now rewrite !store_ne.
  - destruct (report_due c (st_iter st)); auto.
Qed.

(** C8.  Whenever the [nccheck] argument is not 1, [main] writes its
    message to the error stream and returns -1 (a non-zero exit status)
    without having made any call to the device or touched a pinned mirror:
    no allocation, no launch.  With [nccheck = 1] it goes through the
    set-up, the loop and the tear-down and returns 0. *)
Theorem unsupported_nccheck_rejected
    {real : Type} {RA : RealArith real} {RH : RealHost real}
    (boundary_sin : Z -> Z -> real) (jacobi_schedule : Z -> schedule)
    (init_order : list thread) (c : config) :
  (nccheck c <> 1 ->
     main boundary_sin jacobi_schedule init_order c =
     {| exit_status := -1; stderr := [msg_only_nccheck_1]; stdout := []; calls := [] |}) /\
  (nccheck c = 1 ->
     exit_status (main boundary_sin jacobi_schedule init_order c) = 0 /\
     exists loop, calls (main boundary_sin jacobi_schedule init_order c) =
                  setup_calls ++ loop ++ teardown_calls).
Proof.
  unfold main. split; intros Hn.
  - apply Z.eqb_neq in Hn. now rewrite Hn.
  - apply Z.eqb_eq in Hn. rewrite Hn. cbn [negb exit_status calls]. split; eauto.
Qed.

Lemma unsupported_nccheck_rejected_witness :
  main sample_boundary_sin sample_schedule sample_init_order
    {| iter_max := 1000; nccheck := 2; nx := 7168; ny := 7168; csv := false |} =
  {| exit_status := -1; stderr := [msg_only_nccheck_1]; stdout := []; calls := [] |}.
Proof.
  apply (proj1 (unsupported_nccheck_rejected sample_boundary_sin sample_schedule
                  sample_init_order
                  {| iter_max := 1000; nccheck := 2; nx := 7168; ny := 7168;
                     csv := false |})).
  cbn. discriminate.
Defined.

(** C9, as the code has it.  A convergence check emits the iteration index
    and the lagged norm only in human-readable mode and only when the
    iteration index is a multiple of 100 (line 246); every other check
    emits nothing. *)
Theorem progress_reported_every_100
    {real : Type} {RA : RealArith real} {RH : RealHost real}
    (c : config) (st : host_state real) :
  st_out (snd (evaluate_and_reset c st)) =
  if negb (csv c) && (Z.rem (st_iter st) 100 =? 0)
  then st_out st ++ [msg_progress (st_iter st) (rsqrt (st_h st (prev (st_iter st))))]
  else st_out st.
Proof.
  unfold evaluate_and_reset, report_due. cbn [snd st_out]. now rewrite !store_eq.
Qed.

(** C9 fails as stated: the check of iteration 1 of a human-readable run
    is due, evaluates the norm, and emits nothing. *)
Lemma check_without_report :
  check_due second_check_config (st_iter second_check_state) = true /\
  fst (evaluate_and_reset second_check_config second_check_state) =
    S754_finite false 8388608 (-24) /\
  st_out (snd (evaluate_and_reset second_check_config second_check_state)) = [].
Proof. repeat split; reflexivity. Qed.



(* ===================================================================== *)
(** ** Further properties of the program: the command line *)
(* ===================================================================== *)

Lemma std_find_first pre arg rest :
  ~ In arg pre -> std_find (pre ++ arg :: rest) arg = arg :: rest.
Proof.
  induction pre as [|x pre IH]; intros Hno; cbn [app std_find].
  - now rewrite String.eqb_refl.
  - destruct (String.eqb_spec x arg) as [->|_].
    + exfalso. apply Hno. now left.
    + apply IH. intros Hin. apply Hno. now right.
Qed.

Lemma std_find_in args arg : In arg args <-> std_find args arg <> [].
Proof.
  induction args as [|x args IH]; cbn [std_find In]; [tauto|].
  destruct (String.eqb_spec x arg) as [->|Hne].
  - split; [discriminate | auto].
  - rewrite <- IH. tauto.
Qed.

Lemma std_find_last args arg :
  ~ In arg (removelast args) -> std_find args arg = [] \/ std_find args arg = [arg].
Proof.
  induction args as [|x args IH]; intros Hno; [now left|].
  cbn [std_find]. destruct args as [|y args].
  - destruct (String.eqb_spec x arg) as [->|_]; auto.
  - change (removelast (x :: y :: args)) with (x :: removelast (y :: args)) in Hno.
    destruct (String.eqb_spec x arg) as [->|_].
    + exfalso. apply Hno. now left.
    + apply IH. intros Hin. apply Hno. now right.
Qed.

(** X1.  [get_argval] returns the default value when the flag is missing
    from the arguments and also when it only occurs as their last element,
    where no value follows it. *)
Theorem get_argval_default {T : Type} (extract : String.string -> T -> T)
    (args : list String.string) (arg : String.string) (default_val : T) :
  ~ In arg (removelast args) ->
  get_argval extract args arg default_val = default_val.
Proof.
  intros Hno. unfold get_argval.
  destruct (std_find_last args arg Hno) as [-> | ->]; reflexivity.
Qed.

Lemma get_argval_default_witness :
  ~ In "-nx" (removelast ["./jacobi"; "-csv"; "-nx"]) /\
  get_argval (fun _ _ => 0) ["./jacobi"; "-csv"; "-nx"] "-nx" 7168 = 7168.
Proof.
  assert (H : ~ In "-nx" (removelast ["./jacobi"; "-csv"; "-nx"])).
  { cbn. intros [E|[E|[]]]; discriminate E. }
  split; [exact H|].
  apply (get_argval_default (fun _ _ => 0) ["./jacobi"; "-csv"; "-nx"] "-nx" 7168 H).
Defined.

(** X2.  [get_argval] reads the element that follows the first occurrence
    of the flag, whatever that element is and whatever comes later: a
    repeated flag is ignored. *)
Theorem get_argval_first_occurrence {T : Type} (extract : String.string -> T -> T)
    (pre rest : list String.string) (arg value : String.string) (default_val : T) :
  ~ In arg pre ->
  get_argval extract (pre ++ arg :: value :: rest) arg default_val =
  extract value default_val.
Proof.
  intros Hno. unfold get_argval. now rewrite std_find_first.
Qed.

Lemma get_argval_first_occurrence_witness :
  ~ In "-nx" ["./jacobi"] /\
  get_argval (fun s _ => Z.of_nat (String.length s))
    (["./jacobi"] ++ "-nx" :: "64" :: ["-nx"; "128"]) "-nx" 7168 = 2.
Proof.
  assert (H : ~ In "-nx" ["./jacobi"]).
  { cbn. intros [E|[]]; discriminate E. }
  split; [exact H|].
  apply (get_argval_first_occurrence (fun s _ => Z.of_nat (String.length s))
           ["./jacobi"] ["-nx"; "128"] "-nx" "64" 7168 H).
Defined.

(** X3.  [get_arg] answers whether the flag occurs anywhere among the
    arguments, the program name and the values of other flags included. *)
Theorem get_arg_occurs (args : list String.string) (arg : String.string) :
  get_arg args arg = true <-> In arg args.
Proof.
  rewrite std_find_in. unfold get_arg.
  destruct (std_find args arg); split; congruence.
Qed.



(* ===================================================================== *)
(** ** The memory the kernels touch *)
(* ===================================================================== *)

Lemma flat_map_ext_in {A B} (f g : A -> list B) (l : list A) :
  (forall x, In x l -> f x = g x) -> flat_map f l = flat_map g l.
Proof.
  induction l as [|x l IH]; intros H; [reflexivity|].
  cbn [flat_map]. rewrite (H x) by now left. rewrite IH; [reflexivity|].
  intros y Hy. apply H. now right.
Qed.

Lemma fold_left_ext_in {A B} (f g : A -> B -> A) (l : list B) (acc : A) :
  (forall x, In x l -> forall acc, f acc x = g acc x) ->
  fold_left f l acc = fold_left g l acc.
Proof.
  revert acc. induction l as [|x l IH]; intros acc H; [reflexivity|].
  cbn [fold_left]. rewrite (H x) by now left. apply IH.
  intros y Hy. apply H. now right.
Qed.

Lemma stores_to_dec {V} (ws : list (Z * V)) (j : Z) :
  (exists w, In w ws /\ fst w = j) \/ (forall w, In w ws -> fst w <> j).
Proof.
  induction ws as [|w ws [(w' & Hin & E)|IH]].
  - right. intros w [].
  - left. exists w'. split; [now right | exact E].
  - destruct (Z.eq_dec (fst w) j) as [E|NE].
    + left. exists w. split; [now left | exact E].
    + right. intros w' [<-|Hin]; auto.
Qed.

Section KernelFrame.

Context {real : Type} {RA : RealArith real}.

(** A thread of [main]'s launch reads [a] within the [nx * ny] elements of
    the grid only. *)
Lemma jacobi_thread_reads bd t (a a' : buffer real) nx ny :
  1 <= thread_iy bd t ->
  (forall j, 0 <= j < nx * ny -> a j = a' j) ->
  jacobi_thread bd t a iy_start (iy_end ny) nx =
  jacobi_thread bd t a' iy_start (iy_end ny) nx.
Proof.
  intros Hy1 Hsame. unfold jacobi_thread, iy_start, iy_end.
  set (iy := thread_iy bd t) in *. set (ix := thread_ix bd t).
  destruct (Z.ltb_spec iy (ny - 1)) as [Hy|Hy]; [|reflexivity].
  destruct (Z.leb_spec 1 ix) as [Hx1|Hx1]; [|reflexivity].
  destruct (Z.ltb_spec ix (nx - 1)) as [Hx2|Hx2]; [|reflexivity].
  cbn [andb].
  rewrite (Hsame (iy * nx + ix + 1)) by nia.
  rewrite (Hsame (iy * nx + ix - 1)) by nia.
  rewrite (Hsame ((iy + 1) * nx + ix)) by nia.
  rewrite (Hsame ((iy - 1) * nx + ix)) by nia.
  rewrite (Hsame (iy * nx + ix)) by nia.
  reflexivity.
Qed.

(** In [main]'s launch all the stores to one offset carry one value. *)
Lemma launch_jacobi_stores_agree nx ny (a : buffer real) t t' j v v' :
  In t (grid_threads (dim_grid nx ny) dim_block) ->
  In t' (grid_threads (dim_grid nx ny) dim_block) ->
  In (j, v) (fst (jacobi_thread dim_block t a iy_start (iy_end ny) nx)) ->
  In (j, v') (fst (jacobi_thread dim_block t' a iy_start (iy_end ny) nx)) ->
  v = v'.
Proof.
  intros Ht Ht' Hin Hin'.
  destruct (launched_thread_coords _ _ _ Ht) as [Hy1 Hx0]; [reflexivity | reflexivity |].
  destruct (launched_thread_coords _ _ _ Ht') as [Hy1' Hx0']; [reflexivity | reflexivity |].
  apply jacobi_thread_stores in Hin, Hin'. unfold iy_start, iy_end in *.
  destruct Hin as (Hy & Hx & -> & Hcases). destruct Hin' as (Hy' & Hx' & -> & Hcases').
  set (iy := thread_iy dim_block t) in *. set (ix := thread_ix dim_block t) in *.
  set (iy' := thread_iy dim_block t') in *. set (ix' := thread_ix dim_block t') in *.
  assert (E : iy = iy' /\ ix = ix').
  { destruct Hcases as [->|[[Hs ->]|[He ->]]];
      destruct Hcases' as [E|[[Hs' E]|[He' E]]];
      replace (1 - 1) with 0 in * by lia;
      apply offset_inj in E; lia. }
  destruct E as [-> ->]. reflexivity.
Qed.

End KernelFrame.

(* ===================================================================== *)
(** ** The stencil kernel: bounds and schedules *)
(* ===================================================================== *)

(** X5.  The stencil kernel, launched as [main] launches it, stores
    nothing outside the [nx * ny] elements allocated for the grid. *)
Theorem jacobi_kernel_stores_in_bounds
    {real : Type} {RA : RealArith real}
    (nx ny : Z) (s : schedule) (a_new a : buffer real) (l2 : real) (j : Z) :
  valid_schedule (dim_grid nx ny) dim_block s ->
  ~ (0 <= j < nx * ny) ->
  fst (launch_jacobi nx ny s a_new a l2) j = a_new j.
Proof.
  intros Hs Hout. apply launch_jacobi_untouched; [exact Hs|].
  intros iy ix Hx Hy E. apply Hout. nia.
Qed.

Lemma jacobi_kernel_stores_in_bounds_witness :
  fst (launch_jacobi 4 4 (canonical_schedule (dim_grid 4 4) dim_block)
         zero_grid zero_grid Binary32.zero) 16 = Binary32.zero.
Proof.
  apply (jacobi_kernel_stores_in_bounds 4 4 (canonical_schedule (dim_grid 4 4) dim_block)
           zero_grid zero_grid Binary32.zero 16).
  - split; apply Permutation_refl.
  - lia.
Defined.

(** X6.  The stencil kernel, launched as [main] launches it, reads
    nothing outside the [nx * ny] elements of the grid: what it stores and
    what it adds to the accumulator are the same for two input arrays that
    agree on these elements. *)
Theorem jacobi_kernel_reads_in_bounds
    {real : Type} {RA : RealArith real}
    (nx ny : Z) (s : schedule) (a_new a a' : buffer real) (l2 : real) :
  valid_schedule (dim_grid nx ny) dim_block s ->
  (forall j, 0 <= j < nx * ny -> a j = a' j) ->
  launch_jacobi nx ny s a_new a l2 = launch_jacobi nx ny s a_new a' l2.
Proof.
  intros [Hthreads Hblocks] Hsame. unfold launch_jacobi, jacobi_kernel. f_equal.
  - f_equal. apply flat_map_ext_in. intros t Ht. f_equal.
    apply (Permutation_in _ (Permutation_sym Hthreads)) in Ht.
    destruct (launched_thread_coords _ _ _ Ht) as [Hy1 _]; [reflexivity | reflexivity |].
    now apply (jacobi_thread_reads dim_block t a a' nx ny).
  - apply fold_left_ext_in. intros b Hb acc. f_equal.
    unfold block_l2_norm. f_equal. apply map_ext_in. intros ti Hti. f_equal.
    apply (Permutation_in _ (Permutation_sym Hblocks)) in Hb.
    apply (jacobi_thread_reads dim_block _ a a' nx ny); [|exact Hsame].
    assert (Ht : In {| blockIdx := b; threadIdx := ti |}
                    (grid_threads (dim_grid nx ny) dim_block))
      by (apply in_grid_threads; split; assumption).
    destruct (launched_thread_coords _ _ _ Ht) as [Hy1 _]; [reflexivity | reflexivity |].
    exact Hy1.
Qed.

Lemma jacobi_kernel_reads_in_bounds_witness :
  launch_jacobi 4 4 (canonical_schedule (dim_grid 4 4) dim_block)
    zero_grid zero_grid Binary32.zero =
  launch_jacobi 4 4 (canonical_schedule (dim_grid 4 4) dim_block)
    zero_grid (fun j => if (0 <=? j) && (j <? 16) then Binary32.zero else Binary32.one)
    Binary32.zero.
Proof.
  apply (jacobi_kernel_reads_in_bounds 4 4 (canonical_schedule (dim_grid 4 4) dim_block)).
  - split; apply Permutation_refl.
  - intros j Hj. unfold zero_grid.
    destruct (Z.leb_spec 0 j); [|lia]. destruct (Z.ltb_spec j 16); [|lia]. reflexivity.
Defined.

(** X7.  The grid that the stencil kernel leaves does not depend on the
    order in which the device runs the threads: two schedules of
    [main]'s launch give the same value at every offset. *)
Theorem jacobi_kernel_grid_schedule_independent
    {real : Type} {RA : RealArith real}
    (nx ny : Z) (s s' : schedule) (a_new a : buffer real) (l2 l2' : real) (j : Z) :
  valid_schedule (dim_grid nx ny) dim_block s ->
  valid_schedule (dim_grid nx ny) dim_block s' ->
  fst (launch_jacobi nx ny s a_new a l2) j = fst (launch_jacobi nx ny s' a_new a l2') j.
Proof.
  intros [Hs _] [Hs' _]. unfold launch_jacobi, jacobi_kernel. cbn [fst].
  set (f := fun t => fst (jacobi_thread dim_block t a iy_start (iy_end ny) nx)).
  assert (Hlaunched : forall order,
            Permutation (grid_threads (dim_grid nx ny) dim_block) order ->
            forall w, In w (flat_map f order) <->
                      In w (flat_map f (grid_threads (dim_grid nx ny) dim_block))).
  { intros order Hperm w. rewrite !in_flat_map.
    split; intros (t & Ht & Hw); exists t; split; auto.
    - apply (Permutation_in _ (Permutation_sym Hperm) Ht).
    - apply (Permutation_in _ Hperm Ht). }
  destruct (stores_to_dec (flat_map f (grid_threads (dim_grid nx ny) dim_block)) j)
    as [([j0 v] & Hin & E)|Hnone].
  - cbn [fst] in E. subst j0.
    assert (Hv : forall order,
              Permutation (grid_threads (dim_grid nx ny) dim_block) order ->
              apply_stores (flat_map f order) a_new j = v).
    { intros order Hperm. apply apply_stores_agree.
      - exists (j, v). split; [now apply Hlaunched | reflexivity].
      - intros [j' v'] Hin' E'. cbn [fst snd] in *. subst j'.
        apply (Hlaunched order Hperm) in Hin'.
        apply in_flat_map in Hin. destruct Hin as (t & Ht & Hw).
        apply in_flat_map in Hin'. destruct Hin' as (t' & Ht' & Hw').
        symmetry. exact (launch_jacobi_stores_agree nx ny a t t' j v v' Ht Ht' Hw Hw'). }
    now rewrite (Hv _ Hs), (Hv _ Hs').
  - rewrite !apply_stores_untouched; [reflexivity| |].
    + intros w Hw. apply Hnone. now apply (Hlaunched _ Hs').
    + intros w Hw. apply Hnone. now apply (Hlaunched _ Hs).
Qed.

Lemma jacobi_kernel_grid_schedule_independent_witness :
  fst (launch_jacobi 4 4 (canonical_schedule (dim_grid 4 4) dim_block)
         zero_grid zero_grid Binary32.zero) 5 =
  fst (launch_jacobi 4 4
         {| thread_order := rev (grid_threads (dim_grid 4 4) dim_block);
            block_order := rev (grid_blocks (dim_grid 4 4)) |}
         zero_grid zero_grid Binary32.one) 5.
Proof.
  apply (jacobi_kernel_grid_schedule_independent 4 4).
  - split; apply Permutation_refl.
  - split; apply Permutation_rev.
Defined.

(** X8.  On a grid with fewer than three rows or fewer than three
    columns no thread passes the guards of the stencil kernel: a launch
    of [main] stores nothing, and every element of [a_new] keeps its
    value. *)
Theorem jacobi_kernel_degenerate_grid
    {real : Type} {RA : RealArith real}
    (nx ny : Z) (s : schedule) (a_new a : buffer real) (l2 : real) (j : Z) :
  valid_schedule (dim_grid nx ny) dim_block s ->
  nx < 3 \/ ny < 3 ->
  fst (launch_jacobi nx ny s a_new a l2) j = a_new j.
Proof.
  intros [Hperm _] Hsmall.
  unfold launch_jacobi, jacobi_kernel, iy_start, iy_end. cbn [fst].
  apply apply_stores_untouched. intros [j' v] Hin _.
  apply kernel_stores_in in Hin. destruct Hin as (t & Ht & Hin).
  apply jacobi_thread_stores in Hin. destruct Hin as (Hy & Hx & _).
  apply (Permutation_in _ (Permutation_sym Hperm)) in Ht.
  destruct (launched_thread_coords _ _ _ Ht) as [Hy1 _]; [reflexivity | reflexivity |].
  lia.
Qed.

Lemma jacobi_kernel_degenerate_grid_witness :
  fst (launch_jacobi 2 2 (canonical_schedule (dim_grid 2 2) dim_block)
         zero_grid zero_grid Binary32.zero) 1 = zero_grid 1.
Proof.
  apply (jacobi_kernel_degenerate_grid 2 2 (canonical_schedule (dim_grid 2 2) dim_block)
           zero_grid zero_grid Binary32.zero 1).
  - split; apply Permutation_refl.
  - left. lia.
Defined.

(** X9.  The grid of [main]'s launch, [(nx + 31) / 32] by
    [(ny + 3) / 4] blocks of 32 by 4 threads, covers the interior exactly
    once: every interior cell is the cell of one launched thread, which
    passes the guards of the kernel, and of no other launched thread. *)
Theorem launch_covers_interior_once (nx ny iy ix : Z) :
  interior nx ny iy ix ->
  exists t,
    (In t (grid_threads (dim_grid nx ny) dim_block) /\
     thread_cell dim_block t = (iy, ix) /\
     thread_active dim_block (iy_end ny) nx t = true) /\
    (forall t', In t' (grid_threads (dim_grid nx ny) dim_block) ->
                thread_cell dim_block t' = (iy, ix) -> t' = t).
Proof.
  intros [Hx Hy]. unfold iy_start, iy_end in Hy.
  destruct (cell_thread_launched nx ny iy ix) as (t & Ht & Hty & Htx); [lia | lia |].
  assert (Hcell : thread_cell dim_block t = (iy, ix))
    by (unfold thread_cell; now rewrite Hty, Htx).
  exists t. split; [split; [exact Ht|split; [exact Hcell|]]|].
  - unfold thread_active, iy_end. rewrite Hty, Htx.
    apply andb_true_intro. split; [apply Z.ltb_lt; lia|].
    apply andb_true_intro. split; [apply Z.leb_le | apply Z.ltb_lt]; lia.
  - intros t' Ht' Hcell'.
    apply (thread_cell_inj (dim_grid nx ny) dim_block t' t Ht' Ht). congruence.
Qed.

Lemma launch_covers_interior_once_witness :
  exists t,
    (In t (grid_threads (dim_grid 3 3) dim_block) /\
     thread_cell dim_block t = (1, 1) /\
     thread_active dim_block (iy_end 3) 3 t = true) /\
    (forall t', In t' (grid_threads (dim_grid 3 3) dim_block) ->
                thread_cell dim_block t' = (1, 1) -> t' = t).
Proof.
  apply (launch_covers_interior_once 3 3 1 1).
  unfold interior, iy_start, iy_end. lia.
Defined.

(* ===================================================================== *)
(** ** The residual over exact arithmetic *)
(* ===================================================================== *)

Lemma Qc_square_nonneg (y : Qc) : (Q2Qc 0 <= y * y)%Qc.
Proof.
  destruct (Qclt_le_dec y (Q2Qc 0)) as [Hneg|Hpos].
  - assert (H : (Q2Qc 0 <= - y)%Qc).
    { replace (Q2Qc 0) with (- Q2Qc 0)%Qc by reflexivity.
      apply Qcopp_le_compat. now apply Qclt_le_weak. }
    pose proof (Qcmult_le_compat_r _ _ _ H H) as Hsq.
    replace (Q2Qc 0 * - y)%Qc with (Q2Qc 0) in Hsq by ring.
    replace (- y * - y)%Qc with (y * y)%Qc in Hsq by ring. exact Hsq.
  - pose proof (Qcmult_le_compat_r _ _ _ Hpos Hpos) as Hsq.
    replace (Q2Qc 0 * y)%Qc with (Q2Qc 0) in Hsq by ring. exact Hsq.
Qed.

Lemma rsum_nonneg (l : list Qc) :
  (forall x, In x l -> (Q2Qc 0 <= x)%Qc) -> (Q2Qc 0 <= rsum l)%Qc.
Proof.
  induction l as [|x l IH]; intros Hl; cbn.
  - apply Qcle_refl.
  - replace (Q2Qc 0) with (Q2Qc 0 + Q2Qc 0)%Qc by ring.
    apply Qcplus_le_compat; [apply Hl; now left | apply IH; intros y Hy; apply Hl; now right].
Qed.

(** A sum of non-negative rationals is zero only when all of them are. *)
Lemma rsum_zero (l : list Qc) :
  (forall x, In x l -> (Q2Qc 0 <= x)%Qc) ->
  (rsum l = Q2Qc 0 <-> forall x, In x l -> x = Q2Qc 0).
Proof.
  induction l as [|x l IH]; intros Hl.
  - cbn. split; [intros _ y [] | reflexivity].
  - assert (Hx : (Q2Qc 0 <= x)%Qc) by (apply Hl; now left).
    assert (Hrest : forall y, In y l -> (Q2Qc 0 <= y)%Qc) by (intros y Hy; apply Hl; now right).
    pose proof (rsum_nonneg l Hrest) as Hsum.
    change (rsum (x :: l)) with (x + rsum l)%Qc. split.
    + intros E.
      assert (Ex : x = Q2Qc 0).
      { apply Qcle_antisym; [|exact Hx]. rewrite <- E.
        replace x with (x + Q2Qc 0)%Qc at 1 by ring.
        apply Qcplus_le_compat; [apply Qcle_refl | exact Hsum]. }
      subst x. replace (Q2Qc 0 + rsum l)%Qc with (rsum l) in E by ring.
      intros y [<-|Hy]; [reflexivity|]. now apply (proj1 (IH Hrest) E).
    + intros Hall. rewrite (Hall x) by now left.
      rewrite (proj2 (IH Hrest)); [ring|]. intros y Hy. apply Hall. now right.
Qed.

(** X10.  In exact arithmetic the residual that a launch accumulates
    into a zeroed slot is zero exactly when the grid is a fixed point of
    the stencil: every interior cell equals a quarter of the sum of its
    four neighbours. *)
Theorem residual_zero_iff_fixed_point
    (nx ny : Z) (s : schedule) (a_new a : buffer Qc) :
  valid_schedule (dim_grid nx ny) dim_block s ->
  (snd (launch_jacobi nx ny s a_new a (r0 : Qc)) = r0 <->
   forall iy ix, interior nx ny iy ix -> stencil a nx iy ix = a (iy * nx + ix)).
Proof.
  intros Hs.
  rewrite (launch_jacobi_l2 exact_radd_assoc exact_radd_comm exact_radd_0_l nx ny s a_new a r0 Hs).
  rewrite exact_radd_0_l. change (@r0 Qc exact_arith) with (Q2Qc 0).
  rewrite rsum_zero.
  - split.
    + intros Hall iy ix Hcell.
      specialize (Hall (residual2 a nx iy ix)).
      assert (E : residual2 a nx iy ix = Q2Qc 0).
      { apply Hall. apply in_map_iff. exists (iy, ix). split; [reflexivity|].
        now apply in_interior_cells. }
      unfold residual2 in E. cbn [rmul rsub exact_arith] in E.
      set (u := stencil a nx iy ix) in *. set (v := a (iy * nx + ix)) in *.
      apply Qcmult_integral in E.
      assert (E' : (u - v)%Qc = Q2Qc 0) by tauto.
      replace u with ((u - v) + v)%Qc by ring.
      rewrite E'. ring.
    + intros Hfix x Hx. apply in_map_iff in Hx. destruct Hx as ([iy ix] & <- & Hcell).
      apply in_interior_cells in Hcell. cbn [fst snd].
      unfold residual2. rewrite (Hfix iy ix Hcell). cbn [rmul rsub exact_arith]. ring.
  - intros x Hx. apply in_map_iff in Hx. destruct Hx as ([iy ix] & <- & _).
    unfold residual2. cbn [rmul rsub exact_arith]. apply Qc_square_nonneg.
Qed.

Lemma residual_zero_iff_fixed_point_witness :
  snd (launch_jacobi 3 3 (canonical_schedule (dim_grid 3 3) dim_block)
         sample_exact_grid sample_exact_grid (r0 : Qc)) = r0 <->
  forall iy ix, interior 3 3 iy ix ->
    stencil sample_exact_grid 3 iy ix = sample_exact_grid (iy * 3 + ix).
Proof.
  apply (residual_zero_iff_fixed_point 3 3 (canonical_schedule (dim_grid 3 3) dim_block)).
  split; apply Permutation_refl.
Defined.

(* ===================================================================== *)
(** ** The memory the initialisation kernel touches *)
(* ===================================================================== *)

Section InitFrame.

Context {real : Type} {RA : RealArith real}.
Variable boundary_sin : Z -> Z -> real.



End InitFrame.





(* ===================================================================== *)
(** ** The grids from iteration to iteration *)
(* ===================================================================== *)



Section GridSteps.

Context {real : Type} {RA : RealArith real} {RH : RealHost real}.
Variable boundary_sin : Z -> Z -> real.
Variable jacobi_schedule : Z -> schedule.
Variable init_order : list thread.
Variable c : config.

Local Abbreviation before := (state_before boundary_sin jacobi_schedule init_order c).

(** An iteration leaves in [a] what its launch stored into [a_new], and in
    [a_new] the array it read. *)
Lemma state_before_grids k :
  st_a (before (S k)) =
    fst (launch_jacobi (nx c) (ny c) (jacobi_schedule (Z.of_nat k))
           (st_a_new (before k)) (st_a (before k))
           (st_d (before k) (curr (Z.of_nat k)))) /\
  st_a_new (before (S k)) = st_a (before k).
Proof.
  unfold state_before. cbn [iterate_body]. fold (before k).
  pose proof (state_before_iter boundary_sin jacobi_schedule init_order c k) as Hi.
  unfold loop_body.
  destruct (check_due c _);
    cbn [swap_and_count evaluate_and_reset extract compute snd st_a st_a_new];
    rewrite Hi; auto.
Qed.

End GridSteps.

(** X14.  Every iteration of the loop is a Jacobi step: when iteration
    [k + 1] starts, every interior cell of [a] holds a quarter of the sum
    of the four neighbours that the cell had in [a] when iteration [k]
    started, and [a_new] is the array that iteration [k] read. *)
Theorem loop_body_is_jacobi_step
    {real : Type} {RA : RealArith real} {RH : RealHost real}
    (boundary_sin : Z -> Z -> real) (jacobi_schedule : Z -> schedule)
    (init_order : list thread) (c : config) (k : nat) :
  (forall i, valid_schedule (dim_grid (nx c) (ny c)) dim_block (jacobi_schedule i)) ->
  let before := state_before boundary_sin jacobi_schedule init_order c in
  (forall iy ix, interior (nx c) (ny c) iy ix ->
     st_a (before (S k)) (iy * nx c + ix) = stencil (st_a (before k)) (nx c) iy ix) /\
  st_a_new (before (S k)) = st_a (before k).
Proof.
  intros Hsched before. subst before.
  destruct (state_before_grids boundary_sin jacobi_schedule init_order c k) as [Ea Enew].
  split; [|exact Enew].
  intros iy ix [Hx Hy]. unfold iy_start, iy_end in Hy. rewrite Ea.
  apply launch_jacobi_cell; auto.
Qed.

Lemma loop_body_is_jacobi_step_witness :
  st_a_new (state_before sample_boundary_sin sample_schedule sample_init_order
              sample_config 1) =
  st_a (state_before sample_boundary_sin sample_schedule sample_init_order
          sample_config 0).
Proof.
  refine (proj2 (loop_body_is_jacobi_step sample_boundary_sin sample_schedule
                   sample_init_order sample_config 0 _)).
  intros i. split; apply Permutation_refl.
Defined.

(** X15.  From the first iteration on, the two seam rows of [a] are
    copies of the interior rows at the other end: row [ny - 1] of row 1
    and row 0 of row [ny - 2], in every interior column. *)
Theorem seam_rows_periodic
    {real : Type} {RA : RealArith real} {RH : RealHost real}
    (boundary_sin : Z -> Z -> real) (jacobi_schedule : Z -> schedule)
    (init_order : list thread) (c : config) (k : nat) (ix : Z) :
  (forall i, valid_schedule (dim_grid (nx c) (ny c)) dim_block (jacobi_schedule i)) ->
  3 <= ny c -> 1 <= ix <= nx c - 2 ->
  let g := st_a (state_before boundary_sin jacobi_schedule init_order c (S k)) in
  g ((ny c - 1) * nx c + ix) = g (1 * nx c + ix) /\
  g (0 * nx c + ix) = g ((ny c - 2) * nx c + ix).
Proof.
  intros Hsched Hny Hx g. subst g.
  destruct (state_before_grids boundary_sin jacobi_schedule init_order c k) as [-> _].
  set (s := jacobi_schedule (Z.of_nat k)).
  set (st := state_before boundary_sin jacobi_schedule init_order c k).
  destruct (launch_jacobi_cell (nx c) (ny c) s (st_a_new st) (st_a st)
              (st_d st (curr (Z.of_nat k))) 1 ix (Hsched _) Hx ltac:(lia))
    as (Hcell & Hup & _).
  destruct (launch_jacobi_cell (nx c) (ny c) s (st_a_new st) (st_a st)
              (st_d st (curr (Z.of_nat k))) (ny c - 2) ix (Hsched _) Hx ltac:(lia))
    as (Hcell' & _ & Hdown).
  split.
  - rewrite Hup by reflexivity. now rewrite Hcell.
  - rewrite Hdown by reflexivity. now rewrite Hcell'.
Qed.

Lemma seam_rows_periodic_witness :
  let g := st_a (state_before sample_boundary_sin sample_schedule_3x3
                   sample_init_order_3x3 sample_config_3x3 1) in
  g ((ny sample_config_3x3 - 1) * nx sample_config_3x3 + 1)
    = g (1 * nx sample_config_3x3 + 1) /\
  g (0 * nx sample_config_3x3 + 1)
    = g ((ny sample_config_3x3 - 2) * nx sample_config_3x3 + 1).
Proof.
  apply (seam_rows_periodic sample_boundary_sin sample_schedule_3x3
           sample_init_order_3x3 sample_config_3x3 0 1).
  - intros i. split; apply Permutation_refl.
  - cbn. lia.
  - cbn. lia.
Defined.

(* ===================================================================== *)
(** ** What the loop prints and when it stops *)
(* ===================================================================== *)

Section Output.

Context {real : Type} {RA : RealArith real} {RH : RealHost real}.
Variable boundary_sin : Z -> Z -> real.
Variable jacobi_schedule : Z -> schedule.
Variable init_order : list thread.
Variable c : config.

Local Abbreviation before := (state_before boundary_sin jacobi_schedule init_order c).
Local Abbreviation norm := (norm_evaluated boundary_sin jacobi_schedule init_order c).
Local Abbreviation run := (iterations_run boundary_sin jacobi_schedule init_order c).
Local Abbreviation progress := (progress_lines boundary_sin jacobi_schedule init_order c).

Hypothesis Hnccheck : nccheck c = 1.

Lemma st_out_progress_lines k : st_out (before k) = progress k.
Proof.
  induction k as [|k IH]; [reflexivity|].
  rewrite state_before_succ by exact Hnccheck.
  unfold progress_lines. rewrite seq_S, filter_app, map_app. cbn [Nat.add filter].
  fold (progress k). rewrite <- IH.
  unfold swap_and_count, evaluate_and_reset. cbn [snd st_out st_iter extract compute].
  rewrite state_before_iter.
  destruct (report_due c (Z.of_nat k)); cbn [map]; [|now rewrite app_nil_r].
  f_equal. f_equal. f_equal.
  unfold norm_evaluated, evaluate_and_reset. cbn [fst st_iter extract compute].
  now rewrite state_before_iter.
Qed.

Lemma progress_lines_csv k : csv c = true -> progress k = [].
Proof.
  intros Hcsv. unfold progress_lines.
  replace (filter _ (seq 0 k)) with (@nil nat); [reflexivity|].
  symmetry. induction (seq 0 k) as [|i l IH]; [reflexivity|].
  cbn [filter]. unfold report_due at 1. rewrite Hcsv. exact IH.
Qed.

Lemma main_stdout_shape :
  stdout (main boundary_sin jacobi_schedule init_order c) =
  (if csv c then [] else [msg_banner (iter_max c) (ny c) (nx c) (nccheck c)])
  ++ progress run
  ++ (if csv c then [msg_csv_summary (nx c) (ny c) (iter_max c) (nccheck c)]
      else [msg_summary (ny c) (nx c)]).
Proof.
  unfold main. rewrite Hnccheck. cbn [Z.eqb Pos.eqb negb stdout].
  destruct (main_loop_runs boundary_sin jacobi_schedule init_order c) as (-> & _ & _).
  now rewrite st_out_progress_lines.
Qed.

End Output.

(** X16.  With [nccheck = 1], what [main] writes to the standard output
    is: the banner unless [-csv] was given; then one progress line for
    each iteration that ran and whose number is a multiple of 100, in
    order, with the norm that iteration evaluated; then the summary
    line. *)
Theorem main_prints_progress_every_100
    {real : Type} {RA : RealArith real} {RH : RealHost real}
    (boundary_sin : Z -> Z -> real) (jacobi_schedule : Z -> schedule)
    (init_order : list thread) (c : config) :
  nccheck c = 1 -> csv c = false ->
  stdout (main boundary_sin jacobi_schedule init_order c) =
  [msg_banner (iter_max c) (ny c) (nx c) 1]
  ++ map (fun i => msg_progress (Z.of_nat i)
                     (norm_evaluated boundary_sin jacobi_schedule init_order c i))
         (filter (fun i => Z.rem (Z.of_nat i) 100 =? 0)
                 (seq 0 (iterations_run boundary_sin jacobi_schedule init_order c)))
  ++ [msg_summary (ny c) (nx c)].
Proof.
  intros Hn Hcsv. rewrite main_stdout_shape by exact Hn.
  rewrite Hcsv, Hn. unfold progress_lines. do 3 f_equal.
  apply filter_ext. intros i. unfold report_due. now rewrite Hcsv.
Qed.

Lemma main_prints_progress_every_100_witness :
  stdout (main sample_boundary_sin sample_schedule sample_init_order sample_report_config) =
  [msg_banner (iter_max sample_report_config) (ny sample_report_config)
     (nx sample_report_config) 1]
  ++ map (fun i => msg_progress (Z.of_nat i)
                     (norm_evaluated sample_boundary_sin sample_schedule sample_init_order
                        sample_report_config i))
         (filter (fun i => Z.rem (Z.of_nat i) 100 =? 0)
                 (seq 0 (iterations_run sample_boundary_sin sample_schedule
                           sample_init_order sample_report_config)))
  ++ [msg_summary (ny sample_report_config) (nx sample_report_config)].
Proof.
  exact (main_prints_progress_every_100 sample_boundary_sin sample_schedule
           sample_init_order sample_report_config eq_refl eq_refl).
Defined.

(** X17.  With [-csv] (and [nccheck = 1]) the standard output of [main]
    is the single record of the summary: no banner and no progress line,
    however many iterations run. *)
Theorem main_csv_prints_one_record
    {real : Type} {RA : RealArith real} {RH : RealHost real}
    (boundary_sin : Z -> Z -> real) (jacobi_schedule : Z -> schedule)
    (init_order : list thread) (c : config) :
  nccheck c = 1 -> csv c = true ->
  stdout (main boundary_sin jacobi_schedule init_order c) =
  [msg_csv_summary (nx c) (ny c) (iter_max c) 1].
Proof.
  intros Hn Hcsv. rewrite main_stdout_shape by exact Hn.
  rewrite progress_lines_csv by exact Hcsv. now rewrite Hcsv, Hn.
Qed.

Lemma main_csv_prints_one_record_witness :
  stdout (main sample_boundary_sin sample_schedule sample_init_order sample_config) =
  [msg_csv_summary (nx sample_config) (ny sample_config) (iter_max sample_config) 1].
Proof.
  exact (main_csv_prints_one_record sample_boundary_sin sample_schedule sample_init_order
           sample_config eq_refl eq_refl).
Defined.

(** X18.  With a count of iterations that is zero or negative the loop
    body never runs: [main] goes from the set-up straight to the
    tear-down, makes no call of the loop and prints no progress line. *)
Theorem main_without_iterations
    {real : Type} {RA : RealArith real} {RH : RealHost real}
    (boundary_sin : Z -> Z -> real) (jacobi_schedule : Z -> schedule)
    (init_order : list thread) (c : config) :
  nccheck c = 1 -> iter_max c <= 0 ->
  let result := main boundary_sin jacobi_schedule init_order c in
  iterations_run boundary_sin jacobi_schedule init_order c = O /\
  exit_status result = 0 /\
  calls result = setup_calls ++ teardown_calls /\
  stdout result =
    if csv c then [msg_csv_summary (nx c) (ny c) (iter_max c) 1]
    else [msg_banner (iter_max c) (ny c) (nx c) 1; msg_summary (ny c) (nx c)].
Proof.
  intros Hn Hmax result. subst result.
  unfold iterations_run, main. rewrite Hn.
  replace (Z.to_nat (iter_max c)) with O by lia.
  cbn. destruct (csv c); auto.
Qed.

Lemma main_without_iterations_witness :
  calls (main sample_boundary_sin sample_schedule sample_init_order sample_idle_config)
  = setup_calls ++ teardown_calls.
Proof.
  refine (proj1 (proj2 (proj2 (main_without_iterations sample_boundary_sin sample_schedule
                                 sample_init_order sample_idle_config eq_refl _)))).
  cbn. lia.
Defined.

Lemma binary32_sqrt_not_positive x :
  binary32_positive x = false ->
  Binary32.gtb (Binary32.sqrt x) Binary32.tol = false.
Proof.
  destruct x as [s|s| |s m e]; try destruct s; cbn; try reflexivity; discriminate.
Qed.

(** X19.  When the value that an iteration reads from the host mirror is
    not a positive number (it is zero, negative or NaN), the comparison
    with the tolerance fails and the loop ends with that iteration: a
    residual of NaN stops the solver just as convergence does. *)
Theorem loop_stops_on_nonpositive_residual
    (boundary_sin : Z -> Z -> Binary32.float) (jacobi_schedule : Z -> schedule)
    (init_order : list thread) (c : config) (k : nat) :
  nccheck c = 1 ->
  (k < iterations_run boundary_sin jacobi_schedule init_order c)%nat ->
  binary32_positive
    (st_h (state_before boundary_sin jacobi_schedule init_order c k)
          (prev (Z.of_nat k))) = false ->
  iterations_run boundary_sin jacobi_schedule init_order c = S k.
Proof.
  intros Hn Hk Hval.
  destruct (main_loop_runs boundary_sin jacobi_schedule init_order c) as (_ & _ & Hrun).
  destruct (Nat.eq_dec (iterations_run boundary_sin jacobi_schedule init_order c) (S k))
    as [E|NE]; [exact E|].
  specialize (Hrun (S k) ltac:(lia)).
  unfold loop_condition in Hrun. apply andb_prop in Hrun. destruct Hrun as [Hflag _].
  rewrite (flag_after boundary_sin jacobi_schedule init_order c Hn k) in Hflag.
  rewrite norm_evaluated_mirror in Hflag.
  cbn [rgtb rsqrt tol binary32_host] in Hflag.
  rewrite (binary32_sqrt_not_positive _ Hval) in Hflag. discriminate Hflag.
Qed.

Lemma loop_stops_on_nonpositive_residual_witness :
  iterations_run sample_boundary_sin sample_schedule sample_init_order sample_config
  = 2%nat.
Proof.
  apply (loop_stops_on_nonpositive_residual sample_boundary_sin sample_schedule
           sample_init_order sample_config 1 eq_refl).
  - vm_compute. apply le_n.
  - vm_compute. reflexivity.
Defined.

(* ===================================================================== *)
(** ** The pipeline of the three streams *)
(* ===================================================================== *)

Lemma sequential_timing_load k : t_start sequential_timing (load_of k) = (10 * k + 5)%nat.
Proof.
  unfold load_of. cbn [sequential_timing t_start].
  replace ((2 * k) / 2)%nat with k
    by (apply (Nat.div_unique (2 * k) 2 k 0); lia).
  replace ((2 * k) mod 2)%nat with O
    by (apply (Nat.mod_unique (2 * k) 2 k 0); lia).
  lia.
Qed.

Lemma sequential_timing_clear k : t_start sequential_timing (clear_of k) = (10 * k + 7)%nat.
Proof.
  unfold clear_of. cbn [sequential_timing t_start].
  replace ((2 * k + 1) / 2)%nat with k
    by (apply (Nat.div_unique (2 * k + 1) 2 k 1); lia).
  replace ((2 * k + 1) mod 2)%nat with 1%nat
    by (apply (Nat.mod_unique (2 * k + 1) 2 k 1); lia).
  lia.
Qed.

(** The execution in which every operation runs alone respects the waits
    of the loop, however many iterations run. *)
Lemma sequential_timing_admissible_all c n :
  nccheck c = 1 -> admissible (loop_graph c n) sequential_timing.
Proof.
  intros Hc o Ho. apply (in_loop_graph c n o Hc) in Ho. destruct Ho as (k & _ & Ho).
  change (t_finish sequential_timing) with (fun m => S (t_start sequential_timing m)).
  cbv beta.
  pose proof (sequential_timing_load k) as Hl.
  pose proof (sequential_timing_clear k) as Hcl.
  unfold iteration_ops in Ho. cbn [In] in Ho.
  destruct Ho as [<-|[<-|[<-|[<-|[<-|[]]]]]]; cbn [op_node op_waits];
    (split; [lia|]); destruct k as [|k'];
    try pose proof (sequential_timing_load k') as Hl';
    try pose proof (sequential_timing_clear k') as Hcl';
    cbn [In]; intros w Hw;
    repeat (destruct Hw as [<-|Hw]); try contradiction;
    rewrite ?Hl, ?Hcl, ?Hl', ?Hcl';
    unfold kernel_of, copy_of, reset_of; cbn [sequential_timing t_start]; lia.
Qed.

Section Pipeline.

Variable c : config.
Variable n : nat.
Variable t : timing.
Hypothesis Hnccheck : nccheck c = 1.
Hypothesis Hadm : admissible (loop_graph c n) t.

Local Abbreviation start := (t_start t).
Local Abbreviation finish := (t_finish t).

(** Whatever an iteration does has finished when the reset of the next
    iteration starts. *)
Lemma iteration_before_next_reset x i :
  (S i < n)%nat -> (finish (node_of x i) <= start (reset_of (S i)))%nat.
Proof.
  intros Hi.
  pose proof (iteration_orders c n t Hnccheck Hadm i ltac:(lia)) as (R0 & I0 & _).
  pose proof (iteration_orders c n t Hnccheck Hadm (S i) Hi) as (R1 & I1 & N1).
  cbn beta iota in N1. destruct x; cbn [node_of]; lia.
Qed.

(** ... and when the host reads the mirror two iterations later. *)
Lemma iteration_before_second_load x i :
  (S (S i) < n)%nat -> (finish (node_of x i) <= start (load_of (S (S i))))%nat.
Proof.
  intros Hi.
  pose proof (iteration_orders c n t Hnccheck Hadm i ltac:(lia)) as (R0 & I0 & _).
  pose proof (iteration_orders c n t Hnccheck Hadm (S i) ltac:(lia)) as (R1 & I1 & N1).
  pose proof (iteration_orders c n t Hnccheck Hadm (S (S i)) Hi) as (R2 & I2 & N2).
  cbn beta iota in N1, N2. destruct x; cbn [node_of]; lia.
Qed.

Lemma reset_before_later_device y k j :
  (k < j)%nat -> (j < n)%nat -> y <> op_load -> y <> op_clear ->
  (finish (reset_of k) <= start (node_of y j))%nat.
Proof.
  intros Hkj Hj Hl Hcl.
  pose proof (reset_before_next_kernel c n t Hnccheck Hadm k ltac:(lia)) as H1.
  pose proof (kernel_runs c n t Hnccheck Hadm (S k) ltac:(lia)) as H2.
  pose proof (kernel_runs c n t Hnccheck Hadm j Hj) as H3.
  pose proof (kernel_before_copy c n t Hnccheck Hadm j Hj) as H4.
  assert (H5 : (finish (kernel_of (S k)) <= finish (kernel_of j))%nat).
  { destruct (Nat.eq_dec (S k) j) as [<-|Hne]; [lia|].
    pose proof (kernels_in_order c n t Hnccheck Hadm (S k) j ltac:(lia) Hj). lia. }
  destruct y; cbn [node_of]; try contradiction.
  - destruct (Nat.eq_dec (S k) j) as [<-|Hne]; [lia|].
    pose proof (kernels_in_order c n t Hnccheck Hadm (S k) j ltac:(lia) Hj). lia.
  - lia.
  - apply (resets_in_order c n t Hnccheck Hadm); lia.
Qed.

Lemma load_before_later_host y k j :
  (k <= j)%nat -> (j < n)%nat -> y = op_load \/ y = op_clear ->
  (start (load_of k) <= start (node_of y j))%nat.
Proof.
  intros Hkj Hj Hy.
  pose proof (load_runs c n t Hnccheck Hadm k ltac:(lia)) as H1.
  pose proof (load_runs c n t Hnccheck Hadm j Hj) as H2.
  pose proof (load_before_clear c n t Hnccheck Hadm j Hj) as H3.
  assert (H4 : (start (load_of k) <= start (load_of j))%nat).
  { destruct (Nat.eq_dec k j) as [<-|Hne]; [lia|].
    pose proof (loads_in_order c n t Hnccheck Hadm k j ltac:(lia) Hj). lia. }
  destruct Hy as [-> | ->]; cbn [node_of]; lia.
Qed.

Lemma pipeline_depth x y i j :
  (i + 2 <= j)%nat -> (j < n)%nat ->
  (finish (node_of x i) <= start (node_of y j))%nat.
Proof.
  intros Hij Hj.
  assert (Hhost : y = op_load \/ y = op_clear ->
                  (finish (node_of x i) <= start (node_of y j))%nat).
  { intros Hy.
    pose proof (iteration_before_second_load x i ltac:(lia)).
    pose proof (load_before_later_host y (S (S i)) j ltac:(lia) Hj Hy). lia. }
  assert (Hdev : y <> op_load -> y <> op_clear ->
                 (finish (node_of x i) <= start (node_of y j))%nat).
  { intros Hl Hcl.
    pose proof (iteration_before_next_reset x i ltac:(lia)).
    pose proof (reset_runs c n t Hnccheck Hadm (S i) ltac:(lia)).
    pose proof (reset_before_later_device y (S i) j ltac:(lia) Hj Hl Hcl). lia. }
  destruct y; (apply Hhost; auto; fail) || (apply Hdev; discriminate).
Qed.

(** Two operations of the loop on one slot never overlap. *)
Lemma same_slot_ordered x y i j :
  (i <= j)%nat -> (j < n)%nat ->
  slot_of x i = slot_of y j -> node_of x i <> node_of y j ->
  (finish (node_of x i) <= start (node_of y j))%nat \/
  (finish (node_of y j) <= start (node_of x i))%nat.
Proof.
  intros Hij Hj Hslot Hne.
  destruct (Nat.eq_dec i j) as [<-|Hne1].
  - pose proof (iteration_orders c n t Hnccheck Hadm i Hj) as (R0 & I0 & _).
    pose proof (curr_prev_ne i) as Hcp.
    destruct x, y; cbn [node_of slot_of] in *;
      try contradiction; try congruence; lia.
  - destruct (Nat.eq_dec (S i) j) as [<-|Hne2].
    + pose proof (iteration_orders c n t Hnccheck Hadm i ltac:(lia)) as (R0 & I0 & _).
      pose proof (iteration_orders c n t Hnccheck Hadm (S i) Hj) as (R1 & I1 & N1).
      cbn beta iota in N1.
      pose proof (curr_prev_ne i) as Hcp.
      destruct x, y; cbn [node_of slot_of] in *;
        rewrite ?curr_succ, ?prev_succ in Hslot;
        try congruence; left; lia.
    + left. apply pipeline_depth; lia.
Qed.

(** The operations that touch a slot or a mirror, and the slot they work
    on. *)
Lemma accessors o l :
  In o (loop_graph c n) -> In l (accesses (op_call o)) ->
  exists x i, (i < n)%nat /\ op_node o = node_of x i /\
              (l = loc_d (slot_of x i) \/ l = loc_h (slot_of x i)).
Proof.
  intros Ho Hl. apply (in_loop_graph c n o Hnccheck) in Ho.
  destruct Ho as (i & Hi & Ho).
  unfold iteration_ops in Ho. cbn [In] in Ho.
  destruct Ho as [<-|[<-|[<-|[<-|[<-|[]]]]]];
    cbn [op_call op_node accesses reads writes app In] in *.
  - exists op_kernel, i. destruct Hl as [<-|[<-|[]]]; auto.
  - exists op_copy, i. destruct Hl as [<-|[<-|[]]]; auto.
  - exists op_load, i. destruct Hl as [<-|[]]; auto.
  - exists op_clear, i. destruct Hl as [<-|[]]; auto.
  - exists op_reset, i. destruct Hl as [<-|[]]; auto.
Qed.

End Pipeline.

(** What the host has seen complete after the final synchronisation. *)
Lemma seen_after_loop_closed c n :
  nccheck c = 1 ->
  seen_after_loop c n =
  match n with
  | O => [Setup]
  | S n' => [clear_of n'; kernel_of n'; copy_of n'; reset_of n']
  end.
Proof.
  intros Hnccheck.
  destruct (loop_graph_closed c n Hnccheck) as [(_ & Hpend & _ & Hseen & _) _].
  unfold seen_after_loop. cbn [issue rt_host_seen].
  rewrite Hseen, !Hpend. destruct n; reflexivity.
Qed.

(** X20.  At most two iterations are in flight: in every execution that
    the streams and markers admit, each operation of iteration [i] (its
    compute, copy, host read, host clear and reset) has finished before
    any operation of iteration [i + 2] or later starts. *)
Theorem two_iterations_in_flight
    (c : config) (n : nat) (t : timing) (x y : op_kind) (i j : nat) :
  nccheck c = 1 -> admissible (loop_graph c n) t ->
  (i + 2 <= j)%nat -> (j < n)%nat ->
  (t_finish t (node_of x i) <= t_start t (node_of y j))%nat.
Proof. intros Hc Hadm. now apply (pipeline_depth c n t Hc Hadm). Qed.

Lemma two_iterations_in_flight_witness :
  (t_finish sequential_timing (node_of op_reset 0) <=
   t_start sequential_timing (node_of op_load 2))%nat.
Proof.
  apply (two_iterations_in_flight sample_config 3 sequential_timing op_reset op_load 0 2
           eq_refl (sequential_timing_admissible_all sample_config 3 eq_refl)); lia.
Defined.

(** X21.  The loop has no data race on the accumulator slots and their
    host mirrors: in every execution that the streams and markers admit,
    two different operations that touch the same slot or the same mirror
    (kernel, copy, host read, host clear, reset) never overlap in time. *)
Theorem slot_accesses_never_overlap
    (c : config) (n : nat) (t : timing) (o1 o2 : op) (l : location) :
  nccheck c = 1 -> admissible (loop_graph c n) t ->
  In o1 (loop_graph c n) -> In o2 (loop_graph c n) ->
  op_node o1 <> op_node o2 ->
  In l (accesses (op_call o1)) -> In l (accesses (op_call o2)) ->
  (t_finish t (op_node o1) <= t_start t (op_node o2))%nat \/
  (t_finish t (op_node o2) <= t_start t (op_node o1))%nat.
Proof.
  intros Hc Hadm Ho1 Ho2 Hne Hl1 Hl2.
  destruct (accessors c n Hc o1 l Ho1 Hl1) as (x & i & Hi & E1 & Hs1).
  destruct (accessors c n Hc o2 l Ho2 Hl2) as (y & j & Hj & E2 & Hs2).
  rewrite E1, E2 in *.
  assert (Hslot : slot_of x i = slot_of y j).
  { destruct Hs1 as [-> | ->], Hs2 as [E|E]; congruence. }
  destruct (Nat.le_ge_cases i j) as [Hij|Hji].
  - apply (same_slot_ordered c n t Hc Hadm x y i j); auto.
  - apply or_comm. apply (same_slot_ordered c n t Hc Hadm y x j i); auto.
Qed.

Lemma slot_accesses_never_overlap_witness :
  let k1 := {| op_node := kernel_of 1;
               op_call := hipLaunchKernelGGL (k_jacobi_kernel (curr 1)) (Some compute_stream);
               op_waits := [kernel_of 0; reset_of 0; clear_of 0] |} in
  let m0 := {| op_node := reset_of 0;
               op_call := hipMemsetAsync (prev 0) reset_l2_norm_stream;
               op_waits := [clear_of 0] |} in
  (t_finish sequential_timing (op_node k1) <= t_start sequential_timing (op_node m0))%nat \/
  (t_finish sequential_timing (op_node m0) <= t_start sequential_timing (op_node k1))%nat.
Proof.
  intros k1 m0.
  apply (slot_accesses_never_overlap sample_config 2 sequential_timing k1 m0 (loc_d 0)
           eq_refl (sequential_timing_admissible_all sample_config 2 eq_refl)).
  - apply (in_loop_graph sample_config 2 k1 eq_refl). exists 1%nat. split; [lia|].
    left. reflexivity.
  - apply (in_loop_graph sample_config 2 m0 eq_refl). exists 0%nat. split; [lia|].
    do 4 right. left. reflexivity.
  - discriminate.
  - cbv. left. reflexivity.
  - cbv. left. reflexivity.
Defined.

(** X22.  When the [hipDeviceSynchronize] after the loop returns, every
    operation of the loop has finished: in every admissible execution each
    of them finishes no later than one of the operations the host has then
    seen complete, so the tear-down frees nothing that is still in use. *)
Theorem final_synchronize_drains
    (c : config) (n : nat) (t : timing) (o : op) :
  nccheck c = 1 -> admissible (loop_graph c n) t ->
  In o (loop_graph c n) ->
  exists w, In w (seen_after_loop c n) /\
            (t_finish t (op_node o) <= t_finish t w)%nat.
Proof.
  intros Hc Hadm Ho. rewrite (seen_after_loop_closed c n Hc).
  apply (in_loop_graph c n o Hc) in Ho. destruct Ho as (k & Hk & Ho).
  destruct n as [|n']; [lia|].
  assert (Hlast : forall x, exists w,
            In w [clear_of n'; kernel_of n'; copy_of n'; reset_of n'] /\
            (t_finish t (node_of x k) <= t_finish t w)%nat).
  { intros x.
    pose proof (iteration_orders c (S n') t Hc Hadm n' ltac:(lia)) as (R & I & _).
    destruct (Nat.eq_dec k n') as [->|Hne].
    - destruct x; cbn [node_of];
        [exists (kernel_of n') | exists (copy_of n') | exists (clear_of n')
         | exists (clear_of n') | exists (reset_of n')];
        (split; [cbn; auto | lia]).
    - pose proof (iteration_orders c (S n') t Hc Hadm k ltac:(lia)) as (Rk & Ik & _).
      pose proof (kernels_in_order c (S n') t Hc Hadm k n' ltac:(lia) ltac:(lia)).
      pose proof (copies_in_order c (S n') t Hc Hadm k n' ltac:(lia) ltac:(lia)).
      pose proof (resets_in_order c (S n') t Hc Hadm k n' ltac:(lia) ltac:(lia)).
      pose proof (loads_in_order c (S n') t Hc Hadm k n' ltac:(lia) ltac:(lia)).
      pose proof (load_before_clear c (S n') t Hc Hadm k ltac:(lia)).
      pose proof (clear_before_next_load c (S n') t Hc Hadm k ltac:(lia)).
      pose proof (load_runs c (S n') t Hc Hadm (S k) ltac:(lia)).
      assert ((t_finish t (load_of (S k)) <= t_finish t (clear_of n'))%nat).
      { destruct (Nat.eq_dec (S k) n') as [->|Hne']; [lia|].
        pose proof (loads_in_order c (S n') t Hc Hadm (S k) n' ltac:(lia) ltac:(lia)).
        lia. }
      destruct x; cbn [node_of];
        [exists (kernel_of n') | exists (copy_of n') | exists (clear_of n')
         | exists (clear_of n') | exists (reset_of n')];
        (split; [cbn; auto | lia]). }
  unfold iteration_ops in Ho. cbn [In] in Ho.
  destruct Ho as [<-|[<-|[<-|[<-|[<-|[]]]]]]; cbn [op_node].
  - apply (Hlast op_kernel).
  - apply (Hlast op_copy).
  - apply (Hlast op_load).
  - apply (Hlast op_clear).
  - apply (Hlast op_reset).
Qed.

Lemma final_synchronize_drains_witness :
  let k0 := {| op_node := kernel_of 0;
               op_call := hipLaunchKernelGGL (k_jacobi_kernel (curr 0)) (Some compute_stream);
               op_waits := [Setup] |} in
  exists w, In w (seen_after_loop sample_config 2) /\
            (t_finish sequential_timing (op_node k0) <= t_finish sequential_timing w)%nat.
Proof.
  intros k0.
  apply (final_synchronize_drains sample_config 2 sequential_timing k0
           eq_refl (sequential_timing_admissible_all sample_config 2 eq_refl)).
  apply (in_loop_graph sample_config 2 k0 eq_refl). exists 0%nat. split; [lia|].
  left. reflexivity.
Defined.

(** X23.  The waits of the loop are never circular: for every number of
    iterations there is an execution in which every operation takes time
    and no operation starts before what it waits for has finished.  In
    particular the waits of the first iteration for markers that were
    never recorded do not block. *)
Theorem loop_waits_not_circular (c : config) (n : nat) :
  nccheck c = 1 ->
  exists t, admissible (loop_graph c n) t /\
            forall m, (t_start t m < t_finish t m)%nat.
Proof.
  intros Hc. exists sequential_timing. split.
  - now apply sequential_timing_admissible_all.
  - intros m. unfold sequential_timing. cbn [t_start t_finish].
    apply Nat.lt_succ_diag_r.
Qed.

Lemma loop_waits_not_circular_witness :
  exists t, admissible (loop_graph sample_config 2) t /\
            forall m, (t_start t m < t_finish t m)%nat.
Proof. exact (loop_waits_not_circular sample_config 2 eq_refl). Defined.

(* ===================================================================== *)
(** ** The calls of the loop and the lifetimes of the resources *)
(* ===================================================================== *)

Lemma curr_range (k : nat) :
  (prev (Z.of_nat k) = 0 /\ curr (Z.of_nat k) = 1) \/
  (prev (Z.of_nat k) = 1 /\ curr (Z.of_nat k) = 0).
Proof.
  unfold prev, curr. rewrite !Z.rem_mod_nonneg by lia.
  pose proof (Z.mod_pos_bound (Z.of_nat k) 2).
  pose proof (Z.mod_pos_bound (Z.of_nat k + 1) 2).
  pose proof (Z.div_mod (Z.of_nat k) 2). pose proof (Z.div_mod (Z.of_nat k + 1) 2). lia.
Qed.

Lemma track_all_app cs1 cs2 l :
  track_all cs1 = Some l -> track_all (cs1 ++ cs2) = fold_left track cs2 (Some l).
Proof. unfold track_all. intros E. now rewrite fold_left_app, E. Qed.

Lemma track_setup_calls : track_all setup_calls = Some main_resources.
Proof. reflexivity. Qed.

(** An iteration works on resources of [main] only, and neither creates
    nor releases any. *)
Lemma track_iteration_calls c (k : nat) :
  fold_left track (iteration_calls c (Z.of_nat k)) (Some main_resources)
  = Some main_resources.
Proof.
  unfold iteration_calls.
  destruct (curr_range k) as [[-> ->]|[-> ->]]; destruct (check_due c _); reflexivity.
Qed.

Lemma track_loop_calls c n :
  fold_left track (loop_calls c n) (Some main_resources) = Some main_resources.
Proof.
  induction n as [|n IH]; [reflexivity|].
  rewrite loop_calls_succ, fold_left_app, IH. apply track_iteration_calls.
Qed.

Lemma track_teardown_calls :
  fold_left track teardown_calls (Some main_resources) = Some [].
Proof. reflexivity. Qed.

(** X24.  [main] respects the lifetimes of its resources, whatever its
    arguments and however many iterations run: every stream, marker,
    device buffer and pinned mirror is created before the first call that
    works on it, nothing is created twice or released twice or used after
    its release, and when [main] returns everything it created has been
    released. *)
Theorem main_respects_resource_lifetimes
    {real : Type} {RA : RealArith real} {RH : RealHost real}
    (boundary_sin : Z -> Z -> real) (jacobi_schedule : Z -> schedule)
    (init_order : list thread) (c : config) :
  track_all (calls (main boundary_sin jacobi_schedule init_order c)) = Some [].
Proof.
  unfold main. destruct (negb (nccheck c =? 1)); [reflexivity|]. cbn [calls].
  rewrite (track_all_app _ _ _ track_setup_calls), fold_left_app, track_loop_calls.
  apply track_teardown_calls.
Qed.

(** X25.  With [nccheck = 1] the host blocks exactly once in every
    iteration of the loop, and only in [hipEventSynchronize] on the
    copy marker of the slot it is about to read; the loop never calls
    [hipDeviceSynchronize]. *)
Theorem loop_blocks_host_once_per_iteration (c : config) (n : nat) :
  nccheck c = 1 ->
  filter blocks_host (loop_calls c n) =
  map (fun k => hipEventSynchronize (copy_done (prev (Z.of_nat k)))) (seq 0 n).
Proof.
  intros Hc. induction n as [|n IH]; [reflexivity|].
  rewrite loop_calls_succ, filter_app, IH, seq_S, map_app. f_equal.
  unfold iteration_calls. rewrite (check_due_nccheck_1 c _ Hc). reflexivity.
Qed.

Lemma loop_blocks_host_once_per_iteration_witness :
  filter blocks_host (loop_calls sample_config 2) =
  map (fun k => hipEventSynchronize (copy_done (prev (Z.of_nat k)))) (seq 0 2).
Proof. exact (loop_blocks_host_once_per_iteration sample_config 2 eq_refl). Defined.
